(** * The Common Voice metadata/audio joiner

    A shallow embedding of [CommonVoice._generate_examples]
    (src/example-common_voice_17_0.py, lines 171-198) and of the pieces of
    the Python runtime it calls ([str.endswith], [csv.DictReader]), followed
    by the properties of the joiner stated in the specification. The two
    functions of [os.path] the joiner calls are a parameter of the
    embedding: the host framework rebinds them in the module of a builder. *)

From Stdlib Require Import Strings.Ascii Strings.String Strings.Byte.
From stdpp Require Import gmap strings list fin_maps pretty.

(** ** Strings as Python uses them *)

Module PyStr.

(** [s.endswith(suffix)]: some tail of [s] is [suffix]. *)
Fixpoint endswith (s suffix : string) : bool :=
  if String.eqb s suffix then true
  else match s with
       | EmptyString => false
       | String _ s' => endswith s' suffix
       end.

(** [s.startswith(prefix)]. *)
Definition startswith (s prefix : string) : bool := String.prefix prefix s.

(** [s.rfind("/")], with [None] for Python's [-1]. *)
Fixpoint rfind_sep (s : string) : option nat :=
  match s with
  | EmptyString => None
  | String c s' =>
      match rfind_sep s' with
      | Some j => Some (S j)
      | None => if Ascii.eqb c "/" then Some 0 else None
      end
  end.

(** The slices [s[:i]] and [s[i:]]. *)
Fixpoint take (i : nat) (s : string) : string :=
  match i, s with
  | S i', String c s' => String c (take i' s')
  | _, _ => EmptyString
  end.

Fixpoint drop (i : nat) (s : string) : string :=
  match i, s with
  | S i', String _ s' => drop i' s'
  | _, _ => s
  end.

(** [s == "/" * len(s)]. *)
Fixpoint all_sep (s : string) : bool :=
  match s with
  | EmptyString => true
  | String c s' => Ascii.eqb c "/" && all_sep s'
  end.

(** [s.rstrip("/")]. *)
Fixpoint rstrip_sep (s : string) : string :=
  match s with
  | EmptyString => EmptyString
  | String c s' =>
      match rstrip_sep s' with
      | EmptyString => if Ascii.eqb c "/" then EmptyString else String c EmptyString
      | t => String c t
      end
  end.

End PyStr.

(** ** [posixpath], which a plain interpreter binds [os.path] to *)

Module posixpath.

(** [posixpath.split]: cut after the last separator; the head loses its
    trailing separators unless it consists of separators only. *)
Definition split (p : string) : string * string :=
  let i := match PyStr.rfind_sep p with Some j => S j | None => 0 end in
  let head := PyStr.take i p in
  let tail := PyStr.drop i p in
  let head := if negb (String.eqb head "") && negb (PyStr.all_sep head)
              then PyStr.rstrip_sep head else head in
  (head, tail).

(** [posixpath.join a b]: an absolute [b] discards [a]; otherwise the two
    are concatenated, with a separator unless [a] is empty or already
    ends with one. *)
Definition join (a b : string) : string :=
  if PyStr.startswith b "/" then b
  else if String.eqb a "" || PyStr.endswith a "/" then a +:+ b
  else a +:+ "/" +:+ b.

End posixpath.

(** ** [os.path] as the module of the script sees it

    The joiner calls [os.path.split] and [os.path.join] through the names
    of its own module. A plain interpreter binds them to [posixpath]; the
    dataset-loading framework rebinds both names in the module of a builder
    to functions of its own, which cut a path at [::] and normalise local
    paths. The joiner is embedded for any such pair of functions. *)

Module os_path.
Record t := {
  split : string → string * string;
  join : string → string → string
}.
End os_path.

(** [os.path] left as the interpreter binds it. The samples below are
    evaluated with it; their paths are relative paths without [::] or a
    trailing separator and their prefixes plain absolute paths, on which
    the functions of the framework return the same. *)
Definition unpatched : os_path.t :=
  {| os_path.split := posixpath.split; os_path.join := posixpath.join |}.

(** ** Python values and dictionaries *)

(** Keys of the dictionaries [csv.DictReader] yields: the column names, and
    [None] (the default [restkey]) for the surplus cells of a long line. *)
Inductive pykey :=
  | KNone
  | K (name : string).

#[global] Instance pykey_eq_dec : EqDecision pykey.
Proof. solve_decision. Defined.

Definition pykey_to_option (k : pykey) : option string :=
  match k with KNone => None | K s => Some s end.

Definition pykey_of_option (o : option string) : pykey :=
  match o with None => KNone | Some s => K s end.

#[global] Instance pykey_countable : Countable pykey :=
  inj_countable' pykey_to_option pykey_of_option
    (fun k => match k with KNone => eq_refl | K _ => eq_refl end).

(** The values those dictionaries hold: a cell, [None] (the default
    [restval]) for a cell missing from a short line, the list of surplus
    cells, and the [{"path": ..., "bytes": ...}] dictionary of the audio
    feature. *)
Inductive pyval :=
  | PyNone
  | PyString (s : string)
  | PyList (cells : list string)
  | PyAudio (path : string) (bytes : list Byte.byte).

#[global] Instance byte_eq_dec : EqDecision Byte.byte := Byte.byte_eq_dec.

#[global] Instance pyval_eq_dec : EqDecision pyval.
Proof. solve_decision. Defined.

Abbreviation row := (gmap pykey pyval).
Abbreviation table := (gmap string row).

(** Exceptions the joiner can raise on its own. *)
Inductive exn :=
  | KeyError (k : string)
  | AttributeError
  | TypeError
  | IndexError.

#[global] Instance exn_eq_dec : EqDecision exn.
Proof. solve_decision. Defined.

Inductive result (A : Type) :=
  | Ok (a : A)
  | Err (e : exn).
Arguments Ok {A} a.
Arguments Err {A} e.

#[global] Instance result_eq_dec `{EqDecision A} : EqDecision (result A).
Proof. solve_decision. Defined.

#[global] Instance result_ret : MRet result := fun A a => Ok a.
#[global] Instance result_bind : MBind result := fun A B f r =>
  match r with
  | Ok a => f a
  | Err e => Err e
  end.

(** Closed equations between maps are decided by evaluation. *)
Ltac by_computation := apply (bool_decide_unpack _); vm_compute; exact I.

(** ** [csv.DictReader] *)

(** The dictionary built for one line: [dict(zip(fieldnames, row))], then
    the surplus cells under [None], or [None] under every column the line
    is too short for. *)
Definition dict_of_line (fieldnames cells : list string) : row :=
  let d := foldl (fun d kv => <[K kv.1 := PyString kv.2]> d) ∅ (zip fieldnames cells) in
  let lf := length fieldnames in
  let lr := length cells in
  if decide (lf < lr) then <[KNone := PyList (drop lf cells)]> d
  else foldl (fun d key => <[K key := PyNone]> d) d (drop lr fieldnames).

(** The reader over the lines after the header; blank lines are skipped. *)
Definition DictReader (fieldnames : list string) (lines : list (list string)) : list row :=
  dict_of_line fieldnames <$> filter (fun cells => cells ≠ []) lines.

(** ** The joiner *)

(** [list(self._info().features.keys())] *)
Definition data_fields : list string :=
  ["client_id"; "path"; "audio"; "sentence"; "up_votes"; "down_votes";
   "age"; "gender"; "accent"; "locale"; "segment"; "variant"].

(** Lines 177-178: [row["path"]] gets the extension unless it has it. *)
Definition add_extension (r : row) : result row :=
  match r !! K "path" with
  | None => Err (KeyError "path")
  | Some (PyString p) =>
      if PyStr.endswith p ".mp3" then Ok r
      else Ok (<[K "path" := PyString (p +:+ ".mp3")]> r)
  | Some _ => Err AttributeError
  end.

(** The value [row["path"]] has after those lines, from the one before. *)
Definition with_extension (p : string) : string :=
  if PyStr.endswith p ".mp3" then p else p +:+ ".mp3".

(** Lines 180-182: the legacy column is moved to its current name. *)
Definition rename_accents (r : row) : row :=
  match r !! K "accents" with
  | Some v => delete (K "accents") (<[K "accent" := v]> r)
  | None => r
  end.

(** Lines 184-186: every schema field the row lacks is set to [""]. *)
Definition fill_field (r : row) (field : string) : row :=
  match r !! K field with
  | None => <[K field := PyString ""]> r
  | Some _ => r
  end.

Definition fill_missing (r : row) : row := foldl fill_field r data_fields.

(** Line 187: the key the row is stored under, [row["path"]]. *)
Definition row_key (r : row) : result string :=
  match r !! K "path" with
  | None => Err (KeyError "path")
  | Some (PyString p) => Ok p
  | Some _ => Err TypeError
  end.

(** The body of the loop over the reader: the key and the row stored. *)
Definition normalise_row (r : row) : result (string * row) :=
  r ← add_extension r;
  let r := fill_missing (rename_accents r) in
  k ← row_key r;
  mret (k, r).

(** Lines 176-187: the loop over the reader, from the table so far. *)
Fixpoint read_metadata (reader : list row) (metadata : table) : result table :=
  match reader with
  | [] => Ok metadata
  | r :: reader' =>
      kr ← normalise_row r;
      read_metadata reader' (<[kr.1 := kr.2]> metadata)
  end.

(** The key a row ends up under, if the loop body does not raise on it. *)
Definition stored_under (r : row) : option string :=
  match normalise_row r with
  | Ok (key, _) => Some key
  | Err _ => None
  end.

Arguments fill_missing : simpl never.
Arguments normalise_row : simpl never.

(** An archive member: its path in the archive and what [file.read()] returns. *)
Abbreviation entry := (string * list Byte.byte)%type.

(** Truth value of [local_extracted_archive_paths]: [None] (streaming) and
    the empty list are false. *)
Definition truthy (local_extracted_archive_paths : option (list string)) : bool :=
  match local_extracted_archive_paths with
  | Some (_ :: _) => true
  | _ => false
  end.

(** [local_extracted_archive_paths[i]] *)
Definition getitem (local_extracted_archive_paths : option (list string)) (i : nat)
  : result string :=
  match local_extracted_archive_paths with
  | None => Err TypeError
  | Some l => match l !! i with
              | Some p => Ok p
              | None => Err IndexError
              end
  end.

(** Line 195: the conditional expression that computes the final path. *)
Definition resolve_path (ospath : os_path.t)
    (local_extracted_archive_paths : option (list string))
    (i : nat) (path : string) : result string :=
  if truthy local_extracted_archive_paths
  then prefix ← getitem local_extracted_archive_paths i; mret (os_path.join ospath prefix path)
  else Ok path.

(** What the body of the inner loop does with one archive member. *)
Inductive entry_step :=
  | Skip
  | Yield (key : string) (record : row)
  | Raise (e : exn).

#[global] Instance entry_step_eq_dec : EqDecision entry_step.
Proof. solve_decision. Defined.

(** Lines 191-198. [dict(metadata[filename])] is a copy, so the updates of
    [result] leave the table as it is. *)
Definition join_entry (ospath : os_path.t)
    (local_extracted_archive_paths : option (list string))
    (metadata : table) (i : nat) (e : entry) : entry_step :=
  let '(path, file) := e in
  let '(_, filename) := os_path.split ospath path in
  match metadata !! filename with
  | None => Skip
  | Some r =>
      match resolve_path ospath local_extracted_archive_paths i path with
      | Err ex => Raise ex
      | Ok path =>
          let result := <[K "audio" := PyAudio path file]> r in
          let result := <[K "path" := PyString path]> result in
          Yield path result
      end
  end.

(** How a pass of the generator ends. *)
Inductive outcome :=
  | Exhausted
  | Raised (e : exn).

#[global] Instance outcome_eq_dec : EqDecision outcome.
Proof. solve_decision. Defined.

(** What the consumer of the generator sees: the pairs yielded, in order,
    and how the pass ended. *)
Abbreviation emission := (list (string * row) * outcome)%type.

(** Line 190: the loop over the members of archive [i]. *)
Fixpoint join_archive (ospath : os_path.t)
    (local_extracted_archive_paths : option (list string))
    (metadata : table) (i : nat) (audio_archive : list entry) : emission :=
  match audio_archive with
  | [] => ([], Exhausted)
  | e :: rest =>
      match join_entry ospath local_extracted_archive_paths metadata i e with
      | Skip => join_archive ospath local_extracted_archive_paths metadata i rest
      | Yield key record =>
          let '(out, o) := join_archive ospath local_extracted_archive_paths metadata i rest in
          ((key, record) :: out, o)
      | Raise ex => ([], Raised ex)
      end
  end.

(** Line 189: the loop over [enumerate(archives)], from index [i]. *)
Fixpoint join_archives (ospath : os_path.t)
    (local_extracted_archive_paths : option (list string))
    (metadata : table) (i : nat) (archives : list (list entry)) : emission :=
  match archives with
  | [] => ([], Exhausted)
  | audio_archive :: rest =>
      match join_archive ospath local_extracted_archive_paths metadata i audio_archive with
      | (out, Exhausted) =>
          let '(out', o) :=
            join_archives ospath local_extracted_archive_paths metadata (S i) rest in
          ((out ++ out')%list, o)
      | (out, Raised ex) => (out, Raised ex)
      end
  end.

(** [_generate_examples], with the rows the reader yields for [meta_path]. *)
Definition generate_examples (ospath : os_path.t)
    (local_extracted_archive_paths : option (list string))
    (archives : list (list entry)) (reader : list row) : emission :=
  match read_metadata reader ∅ with
  | Err ex => ([], Raised ex)
  | Ok metadata => join_archives ospath local_extracted_archive_paths metadata 0 archives
  end.

Arguments resolve_path : simpl never.
Arguments join_entry : simpl never.

(** ** The generator as a transition system

    The states of a pass over [_generate_examples]: in the loop over the
    reader, at the head of the loop over [enumerate(archives)], in the loop
    over the members of archive [i], and finished. A step is labelled with
    the pair it yields, if any. *)

Inductive gen_state :=
  | Reading (reader : list row) (metadata : table)
  | Enumerating (i : nat) (archives : list (list entry)) (metadata : table)
  | Iterating (i : nat) (audio_archive : list entry) (archives : list (list entry))
      (metadata : table)
  | Finished (o : outcome).

Section machine.

Variable ospath : os_path.t.
Variable local_extracted_archive_paths : option (list string).
Variable archives : list (list entry).

Inductive step : gen_state → option (string * row) → gen_state → Prop :=
  | step_row r reader metadata key r' :
      normalise_row r = Ok (key, r') →
      step (Reading (r :: reader) metadata) None
           (Reading reader (<[key := r']> metadata))
  | step_row_raise r reader metadata ex :
      normalise_row r = Err ex →
      step (Reading (r :: reader) metadata) None (Finished (Raised ex))
  | step_read_done metadata :
      step (Reading [] metadata) None (Enumerating 0 archives metadata)
  | step_archive i audio_archive rest metadata :
      step (Enumerating i (audio_archive :: rest) metadata) None
           (Iterating i audio_archive rest metadata)
  | step_archives_done i metadata :
      step (Enumerating i [] metadata) None (Finished Exhausted)
  | step_archive_done i rest metadata :
      step (Iterating i [] rest metadata) None (Enumerating (S i) rest metadata)
  | step_skip i path file audio_archive rest metadata :
      metadata !! (os_path.split ospath path).2 = None →
      step (Iterating i ((path, file) :: audio_archive) rest metadata) None
           (Iterating i audio_archive rest metadata)
  | step_yield i path file audio_archive rest metadata r path' :
      metadata !! (os_path.split ospath path).2 = Some r →
      resolve_path ospath local_extracted_archive_paths i path = Ok path' →
      step (Iterating i ((path, file) :: audio_archive) rest metadata)
           (Some (path', <[K "path" := PyString path']>
                           (<[K "audio" := PyAudio path' file]> r)))
           (Iterating i audio_archive rest metadata)
  | step_raise i path file audio_archive rest metadata r ex :
      metadata !! (os_path.split ospath path).2 = Some r →
      resolve_path ospath local_extracted_archive_paths i path = Err ex →
      step (Iterating i ((path, file) :: audio_archive) rest metadata) None
           (Finished (Raised ex)).

(** Runs, with the pairs yielded on the way. *)
Inductive run : gen_state → list (string * row) → gen_state → Prop :=
  | run_here s : run s [] s
  | run_step s label s' out s'' :
      step s label s' → run s' out s'' → run s (option_list label ++ out)%list s''.

End machine.

(** ** The plan of the splits *)

Definition _BASE_URL : string :=
  "https://huggingface.co/datasets/mozilla-foundation/common_voice_17_0/resolve/main/".

(** [_AUDIO_URL.format(lang=lang, split=split, shard_idx=shard_idx)] *)
Definition _AUDIO_URL (lang split : string) (shard_idx : Z) : string :=
  _BASE_URL +:+ "audio/" +:+ lang +:+ "/" +:+ split +:+ "/"
    +:+ lang +:+ "_" +:+ split +:+ "_" +:+ pretty shard_idx +:+ ".tar".

(** [_TRANSCRIPT_URL.format(lang=lang, split=split)] *)
Definition _TRANSCRIPT_URL (lang split : string) : string :=
  _BASE_URL +:+ "transcript/" +:+ lang +:+ "/" +:+ split +:+ ".tsv".

Definition _N_SHARDS_URL : string := _BASE_URL +:+ "n_shards.json".

(** The download manager of the host framework, as far as
    [_split_generators] uses it. [download] and [extract] are given on one
    URL or path: on a dictionary of lists the framework applies them to
    every element and keeps the shape. *)
Record DownloadManager := {
  download : string → string;
  extract : string → string;
  download_and_extract : string → string;
  iter_archive : string → list entry;
  is_streaming : bool
}.

(** [d[k]] on a dictionary with string keys. *)
Definition dict_getitem {V} (d : gmap string V) (k : string) : result V :=
  match d !! k with
  | Some v => Ok v
  | None => Err (KeyError k)
  end.

Definition splits : list string :=
  ["train"; "dev"; "test"; "other"; "invalidated"; "validated"].

(** [datasets.Split.TRAIN], [VALIDATION] and [TEST], by their names. *)
Definition split_names : gmap string string :=
  {[ "train" := "train"; "dev" := "validation"; "test" := "test" ]}.

(** Line 142-144: the URLs of the shards of one split; [range] of a count
    that is not positive is empty. *)
Definition shard_urls (n_shards : gmap string (gmap string Z)) (lang split : string)
  : result (list string) :=
  by_split ← dict_getitem n_shards lang;
  n ← dict_getitem by_split split;
  mret (_AUDIO_URL lang split <$> seqZ 0 n).

(** Lines 141-144: the loop that fills [audio_urls]. *)
Fixpoint audio_urls_loop (n_shards : gmap string (gmap string Z)) (lang : string)
    (todo : list string) (audio_urls : gmap string (list string))
  : result (gmap string (list string)) :=
  match todo with
  | [] => Ok audio_urls
  | split :: todo' =>
      urls ← shard_urls n_shards lang split;
      audio_urls_loop n_shards lang todo' (<[split := urls]> audio_urls)
  end.

Module gen_kwargs.
Record t := {
  local_extracted_archive_paths : option (list string);
  archives : list (list entry);
  meta_path : string
}.
End gen_kwargs.

Module SplitGenerator.
Record t := {
  name : string;
  gen_kwargs : gen_kwargs.t
}.
End SplitGenerator.

#[global] Instance gen_kwargs_eq_dec : EqDecision gen_kwargs.t.
Proof. solve_decision. Defined.

#[global] Instance SplitGenerator_eq_dec : EqDecision SplitGenerator.t.
Proof. solve_decision. Defined.

(** Line 163: the list comprehension over [archive_paths.get(split)];
    iterating over [None] would raise [TypeError]. *)
Definition iter_archives (dl_manager : DownloadManager) (paths : option (list string))
  : result (list (list entry)) :=
  match paths with
  | Some paths => Ok (iter_archive dl_manager <$> paths)
  | None => Err TypeError
  end.

(** Lines 158-167: the generator of one split. *)
Definition split_generator (dl_manager : DownloadManager)
    (local_extracted_archive_paths archive_paths : gmap string (list string))
    (meta_paths : gmap string string) (split : string) : result SplitGenerator.t :=
  archives ← iter_archives dl_manager (archive_paths !! split);
  meta_path ← dict_getitem meta_paths split;
  mret {| SplitGenerator.name := default split (split_names !! split);
          SplitGenerator.gen_kwargs :=
            {| gen_kwargs.local_extracted_archive_paths :=
                 local_extracted_archive_paths !! split;
               gen_kwargs.archives := archives;
               gen_kwargs.meta_path := meta_path |} |}.

(** Lines 157-167: the loop that appends the generators. *)
Fixpoint split_generators_loop (dl_manager : DownloadManager)
    (local_extracted_archive_paths archive_paths : gmap string (list string))
    (meta_paths : gmap string string) (todo : list string)
  : result (list SplitGenerator.t) :=
  match todo with
  | [] => Ok []
  | split :: todo' =>
      g ← split_generator dl_manager local_extracted_archive_paths archive_paths
            meta_paths split;
      gs ← split_generators_loop dl_manager local_extracted_archive_paths archive_paths
             meta_paths todo';
      mret (g :: gs)
  end.

(** [_split_generators], for the configuration named [lang]; [json_load]
    stands for opening a local path and parsing it as the table of shard
    counts. *)
Definition _split_generators (json_load : string → gmap string (gmap string Z))
    (lang : string) (dl_manager : DownloadManager) : result (list SplitGenerator.t) :=
  let n_shards_path := download_and_extract dl_manager _N_SHARDS_URL in
  let n_shards := json_load n_shards_path in
  match audio_urls_loop n_shards lang splits ∅ with
  | Err ex => Err ex
  | Ok audio_urls =>
      let archive_paths : gmap string (list string) :=
        (λ urls : list string, download dl_manager <$> urls) <$> audio_urls in
      let local_extracted_archive_paths : gmap string (list string) :=
        if negb (is_streaming dl_manager)
        then (λ paths : list string, extract dl_manager <$> paths) <$> archive_paths
        else ∅ in
      let meta_urls : gmap string string :=
        foldl (λ d split, <[split := _TRANSCRIPT_URL lang split]> d) ∅ splits in
      let meta_paths : gmap string string :=
        download_and_extract dl_manager <$> meta_urls in
      split_generators_loop dl_manager local_extracted_archive_paths archive_paths
        meta_paths splits
  end.

Arguments _split_generators : simpl never.

(** The plan in closed form: the URLs of the shards of a split, from the
    counts of the language, and the generator of the split. *)
Definition urls_of (lang : string) (by_split : gmap string Z) (split : string)
  : list string :=
  _AUDIO_URL lang split <$> seqZ 0 (default 0%Z (by_split !! split)).

Definition planned (lang : string) (dl_manager : DownloadManager)
    (by_split : gmap string Z) (split : string) : SplitGenerator.t :=
  let paths := download dl_manager <$> urls_of lang by_split split in
  {| SplitGenerator.name := default split (split_names !! split);
     SplitGenerator.gen_kwargs :=
       {| gen_kwargs.local_extracted_archive_paths :=
            if is_streaming dl_manager then None
            else Some (extract dl_manager <$> paths);
          gen_kwargs.archives := iter_archive dl_manager <$> paths;
          gen_kwargs.meta_path :=
            download_and_extract dl_manager (_TRANSCRIPT_URL lang split) |} |}.

(** ** Sample transcripts and archives *)

Module sample.

(** The first end-to-end scenario of the specification. *)
Definition clip1_reader : list row :=
  DictReader ["path"; "sentence"; "up_votes"; "down_votes"; "age"; "gender";
              "accent"; "locale"; "segment"; "variant"]
    [["clip1"; "hi"; "2"; "0"; "twenties"; "male"; ""; "en"; ""; ""]].

Definition clip1_archives : list (list entry) :=
  [[("en_train_0/clip1.mp3", [x01; x02])]].

Definition clip1_record (path : string) : row :=
  list_to_map
    [(K "client_id", PyString ""); (K "path", PyString path);
     (K "audio", PyAudio path [x01; x02]);
     (K "sentence", PyString "hi"); (K "up_votes", PyString "2");
     (K "down_votes", PyString "0"); (K "age", PyString "twenties");
     (K "gender", PyString "male"); (K "accent", PyString "");
     (K "locale", PyString "en"); (K "segment", PyString "");
     (K "variant", PyString "")].

(** The row stored for it, and the table built from [clip1_reader]. *)
Definition clip1_row : row := <[K "audio" := PyString ""]> (clip1_record "clip1.mp3").

Definition clip1_table : table := {[ "clip1.mp3" := clip1_row ]}.

(** A member of the archive that the transcript does not list. *)
Definition stray : entry := ("en_train_0/stray.mp3", [x03]).

(** A line of a transcript with the legacy column. *)
Definition legacy_line : row := dict_of_line ["path"; "accents"] ["clip1.mp3"; "us"].

Definition legacy_row : row :=
  list_to_map
    [(K "client_id", PyString ""); (K "path", PyString "clip1.mp3");
     (K "audio", PyString ""); (K "sentence", PyString "");
     (K "up_votes", PyString ""); (K "down_votes", PyString "");
     (K "age", PyString ""); (K "gender", PyString "");
     (K "accent", PyString "us"); (K "locale", PyString "");
     (K "segment", PyString ""); (K "variant", PyString "")].

Definition legacy_record : row :=
  <[K "path" := PyString "clip1.mp3"]>
    (<[K "audio" := PyAudio "clip1.mp3" [x01]]> legacy_row).

(** A transcript that lists one file three times, then another. *)
Definition twice_header : list string := ["path"; "sentence"].

Definition twice_before : list row :=
  DictReader twice_header [["a"; "first"]; ["a.mp3"; "second"]].

Definition twice_last : row := dict_of_line twice_header ["a"; "third"].

Definition twice_after : list row := DictReader twice_header [["b"; "fourth"]].

Definition twice_row : row :=
  list_to_map
    [(K "client_id", PyString ""); (K "path", PyString "a.mp3");
     (K "audio", PyString ""); (K "sentence", PyString "third");
     (K "up_votes", PyString ""); (K "down_votes", PyString "");
     (K "age", PyString ""); (K "gender", PyString "");
     (K "accent", PyString ""); (K "locale", PyString "");
     (K "segment", PyString ""); (K "variant", PyString "")].

(** A transcript with a line one cell shorter than its header, and the
    record emitted for it. *)
Definition short_line : row := dict_of_line ["path"; "sentence"; "age"] ["clip1.mp3"; "hi"].

Definition short_reader : list row :=
  DictReader ["path"; "sentence"; "age"] [["clip1.mp3"; "hi"]].

Definition short_record (path : string) (bytes : list Byte.byte) : row :=
  list_to_map
    [(K "client_id", PyString ""); (K "path", PyString path);
     (K "audio", PyAudio path bytes); (K "sentence", PyString "hi");
     (K "up_votes", PyString ""); (K "down_votes", PyString "");
     (K "age", PyNone); (K "gender", PyString "");
     (K "accent", PyString ""); (K "locale", PyString "");
     (K "segment", PyString ""); (K "variant", PyString "")].

(** A download manager, a table of shard counts, and the plan they give
    for [en] when not streaming. *)
Definition manager (streaming : bool) : DownloadManager :=
  {| download := λ url, "/cache/downloads/" +:+ url;
     extract := λ path, path +:+ ".extracted";
     download_and_extract := λ url, "/cache/downloads/" +:+ url +:+ ".extracted";
     iter_archive := λ path, [("clip1.mp3", [x01])];
     is_streaming := streaming |}.

Definition shard_counts : gmap string Z :=
  {[ "train" := 2%Z; "dev" := 1%Z; "test" := 1%Z; "other" := 0%Z;
     "invalidated" := (-1)%Z; "validated" := 3%Z ]}.

Definition json_load (path : string) : gmap string (gmap string Z) :=
  {[ "en" := shard_counts ]}.

End sample.

(** * Properties *)

(** ** The error monad and the Python runtime, on examples *)

Lemma bind_Ok {A B} (a : A) (f : A → result B) : (Ok a ≫= f) = f a.
Proof. reflexivity. Qed.

Lemma Ok_inj {A} (a b : A) : Ok a = Ok b → a = b.
Proof. by intros [= ->]. Qed.

Lemma bind_Err {A B} (e : exn) (f : A → result B) : (Err e ≫= f) = Err e.
Proof. reflexivity. Qed.

Example split_nested : posixpath.split "en_train_0/clip1.mp3" = ("en_train_0", "clip1.mp3").
Proof. reflexivity. Qed.

Example split_flat : posixpath.split "clip2.mp3" = ("", "clip2.mp3").
Proof. reflexivity. Qed.

Example split_root : posixpath.split "//clip.mp3" = ("//", "clip.mp3").
Proof. reflexivity. Qed.

Example split_trailing : posixpath.split "a//b/" = ("a//b", "").
Proof. reflexivity. Qed.

Example join_plain : posixpath.join "/cache/x" "en_train_0/clip1.mp3" = "/cache/x/en_train_0/clip1.mp3".
Proof. reflexivity. Qed.

Example join_absolute : posixpath.join "/cache/x" "/clip1.mp3" = "/clip1.mp3".
Proof. reflexivity. Qed.

Example join_slash : posixpath.join "/cache/" "clip1.mp3" = "/cache/clip1.mp3".
Proof. reflexivity. Qed.

Example scenario_clip1 :
  generate_examples unpatched None sample.clip1_archives sample.clip1_reader
  = ([("en_train_0/clip1.mp3", sample.clip1_record "en_train_0/clip1.mp3")], Exhausted).
Proof. by_computation. Qed.

Example scenario_clip1_extracted :
  generate_examples unpatched (Some ["/cache/extracted/0"]) sample.clip1_archives
    sample.clip1_reader
  = ([("/cache/extracted/0/en_train_0/clip1.mp3",
       sample.clip1_record "/cache/extracted/0/en_train_0/clip1.mp3")], Exhausted).
Proof. by_computation. Qed.

(** The second scenario: a row without the extension still matches. *)
Example scenario_clip2 :
  (generate_examples unpatched None [[("clip2.mp3", [x03])]]
     (DictReader ["path"; "sentence"] [["clip2"; "ho"]])).1.*1 = ["clip2.mp3"].
Proof. by_computation. Qed.

(** A line shorter than the header: the reader puts [None] under the
    columns it is too short for, the fields are not absent from the row, and
    the loop leaves them as they are. *)
Example short_line_keeps_None :
  (λ kr : string * row, kr.2 !! K "age")
    <$> (generate_examples unpatched None [[("clip1.mp3", [x01])]]
           (DictReader ["path"; "sentence"; "age"] [["clip1.mp3"; "hi"]])).1
  = [Some PyNone].
Proof. by_computation. Qed.

(** A transcript without a [path] column, and a line that stops before it. *)
Example no_path_column :
  generate_examples unpatched None sample.clip1_archives (DictReader ["sentence"] [["hi"]])
  = ([], Raised (KeyError "path")).
Proof. by_computation. Qed.

Example line_stops_before_path :
  generate_examples unpatched None sample.clip1_archives
    (DictReader ["client_id"; "path"] [["abc"]])
  = ([], Raised AttributeError).
Proof. by_computation. Qed.

Example scenario_clip1_table :
  read_metadata sample.clip1_reader ∅ = Ok sample.clip1_table.
Proof. by_computation. Qed.

(** ** Strings and paths *)

Section string_facts.

Lemma app_String c (s t : string) : String c s +:+ t = String c (s +:+ t).
Proof. reflexivity. Qed.

Lemma app_empty_l (s : string) : "" +:+ s = s.
Proof. reflexivity. Qed.

Lemma app_assoc' (s t u : string) : (s +:+ t) +:+ u = s +:+ (t +:+ u).
Proof.
  induction s as [|c s IH]; [done|]. by rewrite !app_String, IH.
Qed.

Lemma length_app_slash a : String.length (a +:+ "/") = S (String.length a).
Proof.
  induction a as [|c a IH]; [done|]. rewrite app_String. simpl. by rewrite IH.
Qed.

Lemma endswith_unfold s suffix :
  PyStr.endswith s suffix =
    if String.eqb s suffix then true
    else match s with
         | EmptyString => false
         | String _ s' => PyStr.endswith s' suffix
         end.
Proof. by destruct s. Qed.

Lemma endswith_refl s : PyStr.endswith s s = true.
Proof. by rewrite endswith_unfold, String.eqb_refl. Qed.

Lemma endswith_app p suffix : PyStr.endswith (p +:+ suffix) suffix = true.
Proof.
  induction p as [|c p IH]; [apply endswith_refl|].
  rewrite app_String, endswith_unfold. by destruct (String.eqb _ _).
Qed.

Lemma endswith_inv s suffix :
  PyStr.endswith s suffix = true → ∃ p, s = p +:+ suffix.
Proof.
  induction s as [|c s IH]; rewrite endswith_unfold.
  - destruct (String.eqb_spec "" suffix) as [<-|]; [|done]. by exists "".
  - destruct (String.eqb_spec (String c s) suffix) as [<-|_].
    + by exists "".
    + intros [p ->]%IH. by exists (String c p).
Qed.

Lemma endswith_spec s suffix :
  PyStr.endswith s suffix = true ↔ ∃ p, s = p +:+ suffix.
Proof.
  split; [apply endswith_inv|]. intros [p ->]. apply endswith_app.
Qed.

(** What [rfind] sees in a concatenation. *)
Lemma rfind_sep_app a b :
  PyStr.rfind_sep (a +:+ b) =
    match PyStr.rfind_sep b with
    | Some j => Some (String.length a + j)
    | None => PyStr.rfind_sep a
    end.
Proof.
  induction a as [|c a IH].
  - rewrite app_empty_l. by destruct (PyStr.rfind_sep b).
  - rewrite app_String. simpl. rewrite IH. by destruct (PyStr.rfind_sep b).
Qed.

Lemma drop_app_length a b n :
  PyStr.drop (String.length a + n) (a +:+ b) = PyStr.drop n b.
Proof. induction a as [|c a IH]; [done|]. by rewrite app_String. Qed.

Lemma drop_0 s : PyStr.drop 0 s = s.
Proof. by destruct s. Qed.

(** The last component of a path survives [posixpath.join]. *)
Lemma split_join prefix path :
  (posixpath.split (posixpath.join prefix path)).2 = (posixpath.split path).2.
Proof.
  unfold posixpath.join.
  destruct (PyStr.startswith path "/"); [done|].
  assert (Hslash : ∀ a, (posixpath.split (a +:+ "/" +:+ path)).2 = (posixpath.split path).2).
  { intros a. rewrite <-app_assoc'. unfold posixpath.split. simpl.
    rewrite rfind_sep_app, (rfind_sep_app a "/"). simpl.
    destruct (PyStr.rfind_sep path) as [j|].
    - replace (S (String.length (a +:+ "/") + j))
        with (String.length (a +:+ "/") + S j) by lia.
      by rewrite drop_app_length.
    - replace (S (String.length a + 0))
        with (String.length (a +:+ "/") + 0) by (rewrite length_app_slash; lia).
      by rewrite drop_app_length, drop_0. }
  destruct (String.eqb_spec prefix "") as [->|Hne]; simpl; [done|].
  destruct (PyStr.endswith prefix "/") eqn:He; [|apply Hslash].
  apply endswith_inv in He as [a ->]. rewrite app_assoc'. apply Hslash.
Qed.

End string_facts.

(** ** Rows *)

Section row_facts.

Implicit Types (r : row) (k : pykey) (f p : string).

Lemma with_extension_endswith p : PyStr.endswith (with_extension p) ".mp3" = true.
Proof.
  unfold with_extension. destruct (PyStr.endswith p ".mp3") eqn:E; [done|].
  apply endswith_app.
Qed.

Lemma add_extension_Ok r r' :
  add_extension r = Ok r' ↔
  ∃ p, r !! K "path" = Some (PyString p)
       ∧ r' = <[K "path" := PyString (with_extension p)]> r.
Proof.
  unfold add_extension, with_extension. split.
  - destruct (r !! K "path") as [[]|] eqn:Hp; try done.
    intros H. exists s. split; [done|].
    destruct (PyStr.endswith s ".mp3"); injection H as <-; [by rewrite insert_id|done].
  - intros (p & Hp & ->). rewrite Hp.
    destruct (PyStr.endswith p ".mp3") eqn:E; [|done].
    by rewrite insert_id.
Qed.

Lemma rename_accents_lookup r k :
  rename_accents r !! k =
    match r !! K "accents" with
    | Some v => if decide (k = K "accents") then None
                else if decide (k = K "accent") then Some v else r !! k
    | None => r !! k
    end.
Proof.
  unfold rename_accents. destruct (r !! K "accents") as [v|]; [|done].
  destruct (decide (k = K "accents")) as [->|]; [by rewrite lookup_delete_eq|].
  rewrite lookup_delete_ne by done.
  destruct (decide (k = K "accent")) as [->|]; [by rewrite lookup_insert_eq|].
  by rewrite lookup_insert_ne.
Qed.

Lemma fill_fields_lookup (fields : list string) r k :
  foldl fill_field r fields !! k =
    match r !! k with
    | Some v => Some v
    | None => if bool_decide (k ∈ K <$> fields) then Some (PyString "") else None
    end.
Proof.
  revert r. induction fields as [|f fields IH]; intros r; simpl.
  { by destruct (r !! k). }
  rewrite IH. unfold fill_field. fold (K <$> fields).
  destruct (r !! K f) as [w|] eqn:Hf.
  - destruct (r !! k) eqn:Hk; [done|].
    assert (k ≠ K f) by congruence.
    apply (f_equal (fun b : bool => if b then _ else _)), bool_decide_ext.
    rewrite elem_of_cons. split; [by right|by intros [->|?]].
  - destruct (decide (K f = k)) as [<-|Hne].
    + rewrite lookup_insert_eq, Hf.
      by rewrite bool_decide_eq_true_2 by apply list_elem_of_here.
    + rewrite lookup_insert_ne by done. destruct (r !! k); [done|].
      apply (f_equal (fun b : bool => if b then _ else _)), bool_decide_ext.
      rewrite elem_of_cons. split; [by right|by intros [->|?]].
Qed.

Lemma fill_missing_lookup r k :
  fill_missing r !! k =
    match r !! k with
    | Some v => Some v
    | None => if bool_decide (k ∈ K <$> data_fields) then Some (PyString "") else None
    end.
Proof. apply fill_fields_lookup. Qed.

Lemma fill_missing_lookup_Some r k v :
  r !! k = Some v → fill_missing r !! k = Some v.
Proof. intros H. by rewrite fill_missing_lookup, H. Qed.

Lemma fill_missing_lookup_field r f :
  f ∈ data_fields → r !! K f = None → fill_missing r !! K f = Some (PyString "").
Proof.
  intros Hf H. rewrite fill_missing_lookup, H.
  rewrite bool_decide_eq_true_2; [done|]. by apply list_elem_of_fmap_2.
Qed.

Lemma fill_missing_lookup_accents r :
  fill_missing r !! K "accents" = r !! K "accents".
Proof. rewrite fill_missing_lookup. by destruct (r !! K "accents"). Qed.

(** What the body of the reading loop stores, and under which key. *)
Lemma normalise_row_Ok r key r' :
  normalise_row r = Ok (key, r') ↔
  ∃ p, r !! K "path" = Some (PyString p)
       ∧ key = with_extension p
       ∧ r' = fill_missing (rename_accents (<[K "path" := PyString key]> r)).
Proof.
  unfold normalise_row.
  assert (Hkey : ∀ p, row_key (fill_missing (rename_accents
                   (<[K "path" := PyString (with_extension p)]> r)))
                 = Ok (with_extension p)).
  { intros p. unfold row_key.
    rewrite (fill_missing_lookup_Some _ _ (PyString (with_extension p))); [done|].
    rewrite rename_accents_lookup.
    destruct (_ !! K "accents"); repeat case_decide; try done;
      by rewrite lookup_insert_eq. }
  split.
  - destruct (add_extension r) as [r1|] eqn:Hadd; [|done].
    apply add_extension_Ok in Hadd as (p & Hp & ->).
    rewrite bind_Ok, Hkey, bind_Ok. intros [<- <-]%Ok_inj%pair_equal_spec.
    by exists p.
  - intros (p & Hp & -> & ->).
    assert (add_extension r = Ok (<[K "path" := PyString (with_extension p)]> r)) as ->.
    { apply add_extension_Ok. by exists p. }
    by rewrite bind_Ok, Hkey, bind_Ok.
Qed.

Lemma normalise_row_total r p :
  r !! K "path" = Some (PyString p) →
  ∃ r', normalise_row r = Ok (with_extension p, r').
Proof. intros Hp. eexists. apply normalise_row_Ok. by exists p. Qed.

Section stored.
Context (r r' : row) (key : string).
Hypothesis Hnorm : normalise_row r = Ok (key, r').

Lemma stored_path : r' !! K "path" = Some (PyString key).
Proof.
  apply normalise_row_Ok in Hnorm as (p & Hp & -> & ->).
  apply fill_missing_lookup_Some. rewrite rename_accents_lookup.
  destruct (_ !! K "accents"); repeat case_decide; try done;
    by rewrite lookup_insert_eq.
Qed.

Lemma stored_key_endswith : PyStr.endswith key ".mp3" = true.
Proof.
  apply normalise_row_Ok in Hnorm as (p & Hp & -> & ->).
  apply with_extension_endswith.
Qed.

Lemma stored_no_accents : r' !! K "accents" = None.
Proof.
  apply normalise_row_Ok in Hnorm as (p & Hp & -> & ->).
  rewrite fill_missing_lookup_accents, rename_accents_lookup.
  destruct (_ !! K "accents") eqn:E; [by rewrite decide_True|done].
Qed.

Lemma stored_accent v : r !! K "accents" = Some v → r' !! K "accent" = Some v.
Proof.
  intros Hv. apply normalise_row_Ok in Hnorm as (p & Hp & -> & ->).
  apply fill_missing_lookup_Some. rewrite rename_accents_lookup.
  rewrite lookup_insert_ne, Hv by done.
  by rewrite decide_False, decide_True.
Qed.

Lemma stored_field f : f ∈ data_fields → is_Some (r' !! K f).
Proof.
  intros Hf. apply normalise_row_Ok in Hnorm as (p & Hp & -> & ->).
  rewrite fill_missing_lookup. destruct (_ !! K f); [by eexists|].
  rewrite bool_decide_eq_true_2; [by eexists|]. by apply list_elem_of_fmap_2.
Qed.

(** A field the row came with is stored as it came, apart from the
    path and the two accent columns. *)
Lemma stored_present f v :
  f ≠ "path" → f ≠ "accent" → f ≠ "accents" →
  r !! K f = Some v → r' !! K f = Some v.
Proof.
  intros ??? Hv. apply normalise_row_Ok in Hnorm as (p & Hp & -> & ->).
  apply fill_missing_lookup_Some. rewrite rename_accents_lookup.
  destruct (_ !! K "accents"); repeat case_decide; simplify_eq;
    by rewrite lookup_insert_ne by congruence.
Qed.

(** A schema field the row came without is stored as [""], unless it
    is [accent] and the row came with the legacy column. *)
Lemma stored_absent f :
  f ∈ data_fields → r !! K f = None →
  ¬ (f = "accent" ∧ is_Some (r !! K "accents")) →
  r' !! K f = Some (PyString "").
Proof.
  intros Hf Hnone Hacc. apply normalise_row_Ok in Hnorm as (p & Hp & -> & ->).
  apply fill_missing_lookup_field; [done|]. rewrite rename_accents_lookup.
  assert (f ≠ "path") by congruence.
  rewrite (lookup_insert_ne _ (K "path") (K "accents")) by done.
  destruct (r !! K "accents") as [v|] eqn:E.
  - rewrite decide_False by (intros [= ->]; congruence).
    rewrite decide_False by (intros [= ->]; apply Hacc; eauto).
    by rewrite lookup_insert_ne by congruence.
  - by rewrite lookup_insert_ne by congruence.
Qed.
End stored.

End row_facts.

(** ** The Metadata Table *)

Section table_facts.

Implicit Types (reader : list row) (metadata : table) (r : row).

Lemma read_metadata_cons r reader metadata :
  read_metadata (r :: reader) metadata =
    normalise_row r ≫= λ kr, read_metadata reader (<[kr.1 := kr.2]> metadata).
Proof. reflexivity. Qed.

Lemma read_metadata_app reader1 reader2 metadata :
  read_metadata (reader1 ++ reader2) metadata =
    read_metadata reader1 metadata ≫= read_metadata reader2.
Proof.
  revert metadata. induction reader1 as [|r reader1 IH]; intros metadata; [done|].
  rewrite <-app_comm_cons, !read_metadata_cons.
  destruct (normalise_row r) as [kr|e]; [|done]. rewrite !bind_Ok. apply IH.
Qed.

(** Every row of the table was put there by the loop. *)
Lemma read_metadata_lookup reader metadata metadata' key r' :
  read_metadata reader metadata = Ok metadata' →
  metadata' !! key = Some r' →
  metadata !! key = Some r' ∨ ∃ r, r ∈ reader ∧ normalise_row r = Ok (key, r').
Proof.
  revert metadata. induction reader as [|r reader IH]; intros metadata.
  { intros [= ->] ?. by left. }
  rewrite read_metadata_cons.
  destruct (normalise_row r) as [[k1 r1]|e] eqn:Hr; [|done]. rewrite bind_Ok.
  intros Hread Hlook. destruct (IH _ Hread Hlook) as [Hin|(r0 & ? & ?)].
  - cbn [fst snd] in Hin. destruct (decide (k1 = key)) as [->|Hne].
    + rewrite lookup_insert_eq in Hin. injection Hin as ->.
      right. exists r. split; [apply list_elem_of_here|done].
    + rewrite lookup_insert_ne in Hin by done. by left.
  - right. exists r0. split; [by apply list_elem_of_further|done].
Qed.

(** Rows stored under other keys leave a key as it is. *)
Lemma read_metadata_other reader metadata metadata' key :
  read_metadata reader metadata = Ok metadata' →
  Forall (λ r, ∀ r', normalise_row r ≠ Ok (key, r')) reader →
  metadata' !! key = metadata !! key.
Proof.
  revert metadata. induction reader as [|r reader IH]; intros metadata.
  { by intros [= ->] _. }
  rewrite read_metadata_cons.
  destruct (normalise_row r) as [[k1 r1]|e] eqn:Hr; [|done]. rewrite bind_Ok.
  intros Hread [Hne Hrest]%Forall_cons. rewrite (IH _ Hread Hrest).
  cbn [fst snd]. apply lookup_insert_ne. intros ->. by apply (Hne r1).
Qed.

(** The row stored under a key is the last one that normalises to it. *)
Lemma read_metadata_last reader1 r reader2 metadata metadata' key r' :
  read_metadata (reader1 ++ r :: reader2) metadata = Ok metadata' →
  normalise_row r = Ok (key, r') →
  Forall (λ r2, ∀ r2', normalise_row r2 ≠ Ok (key, r2')) reader2 →
  metadata' !! key = Some r'.
Proof.
  rewrite read_metadata_app.
  destruct (read_metadata reader1 metadata) as [m1|e]; [|done].
  rewrite bind_Ok, read_metadata_cons. intros Hread Hr. rewrite Hr, bind_Ok in Hread.
  intros Hlater. rewrite (read_metadata_other _ _ _ _ Hread Hlater).
  apply lookup_insert_eq.
Qed.

(** The loop fails on a row without a string under [path], and only there. *)
Lemma read_metadata_Ok reader metadata :
  (∃ metadata', read_metadata reader metadata = Ok metadata') ↔
  Forall (λ r, ∃ p, r !! K "path" = Some (PyString p)) reader.
Proof.
  revert metadata. induction reader as [|r reader IH]; intros metadata.
  { split; [by constructor|by eexists]. }
  rewrite read_metadata_cons, Forall_cons. split.
  - intros [metadata' Hread].
    destruct (normalise_row r) as [[k1 r1]|e] eqn:Hr; [|done].
    rewrite bind_Ok in Hread. split; [|eapply IH; eauto].
    apply normalise_row_Ok in Hr as (p & ? & _). by exists p.
  - intros [[p Hp] Hrest]. destruct (normalise_row_total r p Hp) as [r1 ->].
    rewrite bind_Ok. by apply IH.
Qed.

End table_facts.

(** ** The loop over the archives *)

Section join_facts.

Context (ospath : os_path.t) (lp : option (list string)) (metadata : table).
Implicit Types (i j : nat) (e : entry) (path key : string) (record r : row).

(** The conditional expression of line 195, case by case. *)
Lemma resolve_path_cases i path :
  resolve_path ospath lp i path =
    match lp with
    | Some ((_ :: _) as l) =>
        match l !! i with
        | Some prefix => Ok (os_path.join ospath prefix path)
        | None => Err IndexError
        end
    | _ => Ok path
    end.
Proof.
  unfold resolve_path, getitem.
  destruct lp as [[|p l]|]; try done.
  cbn [truthy]. by destruct ((p :: l) !! i).
Qed.

Lemma resolve_path_Err i path ex : resolve_path ospath lp i path = Err ex → ex = IndexError.
Proof.
  rewrite resolve_path_cases.
  destruct lp as [[|p l]|]; try done.
  destruct ((p :: l) !! i); [done|]. by intros [= <-].
Qed.

(** The final path, from the truth value of the prefix list. *)
Lemma resolve_path_Ok i path final :
  resolve_path ospath lp i path = Ok final ↔
  if truthy lp
  then ∃ l prefix, lp = Some l ∧ l !! i = Some prefix
                   ∧ final = os_path.join ospath prefix path
  else final = path.
Proof.
  rewrite resolve_path_cases.
  destruct lp as [[|p l]|]; cbn [truthy]; try (split; congruence).
  destruct ((p :: l) !! i) as [prefix|] eqn:Hi; split.
  - intros [= <-]. by exists (p :: l), prefix.
  - intros (l' & prefix' & [= <-] & Hprefix & ->). congruence.
  - done.
  - intros (l' & prefix' & [= <-] & Hprefix & _). congruence.
Qed.

Lemma join_entry_unfold i path file :
  join_entry ospath lp metadata i (path, file) =
    match metadata !! (os_path.split ospath path).2 with
    | None => Skip
    | Some r =>
        match resolve_path ospath lp i path with
        | Err ex => Raise ex
        | Ok path' => Yield path' (<[K "path" := PyString path']>
                                     (<[K "audio" := PyAudio path' file]> r))
        end
    end.
Proof. unfold join_entry. by destruct (os_path.split ospath path). Qed.

Lemma join_entry_Yield i path file key record :
  join_entry ospath lp metadata i (path, file) = Yield key record ↔
  ∃ r, metadata !! (os_path.split ospath path).2 = Some r
       ∧ resolve_path ospath lp i path = Ok key
       ∧ record = <[K "path" := PyString key]> (<[K "audio" := PyAudio key file]> r).
Proof.
  rewrite join_entry_unfold. split.
  - destruct (metadata !! _) as [r|]; [|done].
    destruct (resolve_path ospath lp i path) as [path'|]; [|done].
    intros [= <- <-]. by exists r.
  - intros (r & -> & -> & ->). done.
Qed.

Lemma join_entry_Raise i path file ex :
  join_entry ospath lp metadata i (path, file) = Raise ex →
  is_Some (metadata !! (os_path.split ospath path).2) ∧ resolve_path ospath lp i path = Err ex.
Proof.
  rewrite join_entry_unfold.
  destruct (metadata !! _) as [r|]; [|done].
  destruct (resolve_path ospath lp i path) as [path'|]; [done|].
  intros [= <-]. eauto.
Qed.

Lemma join_archive_cons i e audio_archive :
  join_archive ospath lp metadata i (e :: audio_archive) =
    match join_entry ospath lp metadata i e with
    | Skip => join_archive ospath lp metadata i audio_archive
    | Yield key record =>
        let '(out, o) := join_archive ospath lp metadata i audio_archive in
        ((key, record) :: out, o)
    | Raise ex => ([], Raised ex)
    end.
Proof. reflexivity. Qed.

Lemma join_archives_cons i audio_archive archives :
  join_archives ospath lp metadata i (audio_archive :: archives) =
    match join_archive ospath lp metadata i audio_archive with
    | (out, Exhausted) =>
        let '(out', o) := join_archives ospath lp metadata (S i) archives in ((out ++ out')%list, o)
    | (out, Raised ex) => (out, Raised ex)
    end.
Proof. reflexivity. Qed.

(** Every pair yielded comes from a member of some archive. *)
Lemma join_archive_elem i audio_archive key record :
  (key, record) ∈ (join_archive ospath lp metadata i audio_archive).1 →
  ∃ e, e ∈ audio_archive ∧ join_entry ospath lp metadata i e = Yield key record.
Proof.
  induction audio_archive as [|e rest IH]; [by intros ?%elem_of_nil|].
  rewrite join_archive_cons.
  destruct (join_entry ospath lp metadata i e) as [|k1 r1|ex] eqn:He.
  - intros (e' & ? & ?)%IH. exists e'. split; [by apply list_elem_of_further|done].
  - destruct (join_archive ospath lp metadata i rest) as [out o]. cbn [fst].
    intros [[= -> ->]|Hin]%elem_of_cons.
    + exists e. split; [apply list_elem_of_here|done].
    + destruct (IH Hin) as (e' & ? & ?).
      exists e'. split; [by apply list_elem_of_further|done].
  - by intros ?%elem_of_nil.
Qed.

Lemma join_archives_elem i archives key record :
  (key, record) ∈ (join_archives ospath lp metadata i archives).1 →
  ∃ j audio_archive e,
    archives !! j = Some audio_archive ∧ e ∈ audio_archive
    ∧ join_entry ospath lp metadata (i + j) e = Yield key record.
Proof.
  revert i. induction archives as [|a rest IH]; intros i; [by intros ?%elem_of_nil|].
  rewrite join_archives_cons.
  destruct (join_archive ospath lp metadata i a) as [out o] eqn:Ha.
  assert (Hhere : (key, record) ∈ out →
            ∃ j audio_archive e, (a :: rest) !! j = Some audio_archive
              ∧ e ∈ audio_archive ∧ join_entry ospath lp metadata (i + j) e = Yield key record).
  { intros Hin. destruct (join_archive_elem i a key record) as (e & ? & ?).
    { by rewrite Ha. }
    exists 0, a, e. by rewrite Nat.add_0_r. }
  destruct o as [|ex]; [|done].
  destruct (join_archives ospath lp metadata (S i) rest) as [out' o'] eqn:Hrest. cbn [fst].
  intros [Hin|Hin]%elem_of_app; [by apply Hhere|].
  destruct (IH (S i)) as (j & a' & e & ? & ? & ?); [by rewrite Hrest|].
  exists (S j), a', e. by rewrite Nat.add_succ_r.
Qed.

(** A pass that is not cut short yields a pair for every member that has one. *)
Lemma join_archive_complete i audio_archive e key record :
  (join_archive ospath lp metadata i audio_archive).2 = Exhausted →
  e ∈ audio_archive → join_entry ospath lp metadata i e = Yield key record →
  (key, record) ∈ (join_archive ospath lp metadata i audio_archive).1.
Proof.
  induction audio_archive as [|e' rest IH]; [by intros _ ?%elem_of_nil|].
  rewrite join_archive_cons. intros Hend Hin Hyield.
  destruct (join_entry ospath lp metadata i e') as [|k1 r1|ex] eqn:He'.
  - apply elem_of_cons in Hin as [->|Hin]; [congruence|]. by apply IH.
  - destruct (join_archive ospath lp metadata i rest) as [out o]. cbn [fst snd] in *.
    apply elem_of_cons in Hin as [->|Hin].
    + rewrite Hyield in He'. injection He' as <- <-. apply list_elem_of_here.
    + apply list_elem_of_further. by apply IH.
  - done.
Qed.

Lemma join_archives_complete i archives j audio_archive e key record :
  (join_archives ospath lp metadata i archives).2 = Exhausted →
  archives !! j = Some audio_archive → e ∈ audio_archive →
  join_entry ospath lp metadata (i + j) e = Yield key record →
  (key, record) ∈ (join_archives ospath lp metadata i archives).1.
Proof.
  revert i j. induction archives as [|a rest IH]; intros i j; [done|].
  rewrite join_archives_cons. intros Hend Hj Hin Hyield.
  destruct (join_archive ospath lp metadata i a) as [out o] eqn:Ha.
  destruct o as [|ex]; [|done].
  destruct (join_archives ospath lp metadata (S i) rest) as [out' o'] eqn:Hrest. cbn [fst snd] in *.
  apply elem_of_app. destruct j as [|j].
  - left. injection Hj as ->. rewrite Nat.add_0_r in Hyield.
    pose proof (join_archive_complete i audio_archive e key record) as Hc.
    rewrite Ha in Hc. by apply Hc.
  - right. rewrite Nat.add_succ_r in Hyield.
    pose proof (IH (S i) j) as Hc. rewrite Hrest in Hc. by apply Hc.
Qed.

(** A pass is cut short only by a member that raises. *)
Lemma join_archive_exhausted i audio_archive :
  (∀ e ex, e ∈ audio_archive → join_entry ospath lp metadata i e ≠ Raise ex) →
  (join_archive ospath lp metadata i audio_archive).2 = Exhausted.
Proof.
  induction audio_archive as [|e rest IH]; [done|]. intros Hok.
  rewrite join_archive_cons.
  assert ((join_archive ospath lp metadata i rest).2 = Exhausted) as Hrest.
  { apply IH. intros e' ex ?. apply Hok. by apply list_elem_of_further. }
  destruct (join_entry ospath lp metadata i e) as [|k1 r1|ex] eqn:He; [done| |].
  - by destruct (join_archive ospath lp metadata i rest).
  - destruct (Hok e ex); [apply list_elem_of_here|done].
Qed.

Lemma join_archives_exhausted i archives :
  (∀ j audio_archive e ex, archives !! j = Some audio_archive → e ∈ audio_archive →
                            join_entry ospath lp metadata (i + j) e ≠ Raise ex) →
  (join_archives ospath lp metadata i archives).2 = Exhausted.
Proof.
  revert i. induction archives as [|a rest IH]; intros i Hok; [done|].
  rewrite join_archives_cons.
  pose proof (join_archive_exhausted i a) as Ha.
  destruct (join_archive ospath lp metadata i a) as [out o]. cbn [snd] in Ha. rewrite Ha.
  - pose proof (IH (S i)) as Hrest.
    destruct (join_archives ospath lp metadata (S i) rest) as [out' o']. cbn [snd] in *.
    apply Hrest. intros j a' e ex ??.
    replace (S i + j) with (i + S j) by lia. by apply (Hok (S j) a').
  - intros e ex ?. specialize (Hok 0 a e ex). rewrite Nat.add_0_r in Hok. by apply Hok.
Qed.

(** A member that is skipped can be left out of its archive. *)
Lemma join_archive_skip i before e after :
  join_entry ospath lp metadata i e = Skip →
  join_archive ospath lp metadata i (before ++ e :: after)
  = join_archive ospath lp metadata i (before ++ after).
Proof.
  intros He. induction before as [|e' before IH].
  - cbn [app]. by rewrite join_archive_cons, He.
  - rewrite <-!app_comm_cons, !join_archive_cons, IH. done.
Qed.

(** Archives that fare alike can stand for one another. *)
Lemma join_archives_replace i before audio_archive audio_archive' after :
  join_archive ospath lp metadata (i + length before) audio_archive
    = join_archive ospath lp metadata (i + length before) audio_archive' →
  join_archives ospath lp metadata i (before ++ audio_archive :: after)
    = join_archives ospath lp metadata i (before ++ audio_archive' :: after).
Proof.
  revert i. induction before as [|a before IH]; intros i Heq.
  - cbn [app length] in *. rewrite Nat.add_0_r in Heq.
    by rewrite !join_archives_cons, Heq.
  - rewrite <-!app_comm_cons, !join_archives_cons.
    rewrite (IH (S i)); [done|]. cbn [length] in Heq.
    by rewrite Nat.add_succ_r in Heq.
Qed.

End join_facts.

(** ** The transition system *)

Section machine_facts.

Context (ospath : os_path.t) (lp : option (list string)) (archives : list (list entry)).

Lemma step_deterministic s label1 s1 label2 s2 :
  step ospath lp archives s label1 s1 → step ospath lp archives s label2 s2 →
  label1 = label2 ∧ s1 = s2.
Proof.
  intros H1 H2. inversion H1; subst; inversion H2; subst; split; congruence.
Qed.

Lemma finished_stuck o label s : ¬ step ospath lp archives (Finished o) label s.
Proof. inversion 1. Qed.

Lemma run_deterministic s out1 o1 out2 o2 :
  run ospath lp archives s out1 (Finished o1) → run ospath lp archives s out2 (Finished o2) →
  out1 = out2 ∧ o1 = o2.
Proof.
  intros H1. revert out2. remember (Finished o1) as final eqn:Hfinal.
  induction H1 as [s|s label s' out s'' Hstep Hrun IH]; intros out2 H2; subst.
  - inversion H2 as [|? ? ? ? ? Hstep2]; subst; [done|].
    by apply finished_stuck in Hstep2.
  - inversion H2 as [|? ? ? ? ? Hstep2 Hrun2]; subst.
    { by apply finished_stuck in Hstep. }
    destruct (step_deterministic _ _ _ _ _ Hstep Hstep2) as [-> ->].
    destruct (IH eq_refl _ Hrun2) as [-> ->]. done.
Qed.

Lemma run_silent s s' out s'' :
  step ospath lp archives s None s' → run ospath lp archives s' out s'' →
  run ospath lp archives s out s''.
Proof. intros Hstep Hrun. exact (run_step _ _ _ _ None _ _ _ Hstep Hrun). Qed.

Lemma run_yield s s' key record out s'' :
  step ospath lp archives s (Some (key, record)) s' → run ospath lp archives s' out s'' →
  run ospath lp archives s ((key, record) :: out) s''.
Proof. intros Hstep Hrun. exact (run_step _ _ _ _ (Some _) _ _ _ Hstep Hrun). Qed.

Lemma run_trans s out s' out' s'' :
  run ospath lp archives s out s' → run ospath lp archives s' out' s'' →
  run ospath lp archives s (out ++ out')%list s''.
Proof.
  induction 1 as [|s label s' out s1 Hstep Hrun IH]; intros Hrest; [done|].
  rewrite <-(assoc_L (++)). eapply run_step; [done|]. by apply IH.
Qed.

(** The loops of the function are runs of the transition system. *)
Lemma run_reading reader metadata :
  run ospath lp archives (Reading reader metadata) []
    match read_metadata reader metadata with
    | Ok metadata' => Enumerating 0 archives metadata'
    | Err ex => Finished (Raised ex)
    end.
Proof.
  revert metadata. induction reader as [|r reader IH]; intros metadata.
  { eapply run_silent; constructor. }
  rewrite read_metadata_cons.
  destruct (normalise_row r) as [[key r']|ex] eqn:Hr.
  - rewrite bind_Ok. eapply run_silent; [by constructor|]. apply IH.
  - eapply run_silent; [by apply step_row_raise|]. constructor.
Qed.

Lemma run_iterating i audio_archive rest metadata :
  run ospath lp archives (Iterating i audio_archive rest metadata)
    (join_archive ospath lp metadata i audio_archive).1
    match (join_archive ospath lp metadata i audio_archive).2 with
    | Exhausted => Enumerating (S i) rest metadata
    | Raised ex => Finished (Raised ex)
    end.
Proof.
  induction audio_archive as [|[path file] audio_archive IH].
  { eapply run_silent; constructor. }
  rewrite join_archive_cons, join_entry_unfold.
  destruct (metadata !! (os_path.split ospath path).2) as [r|] eqn:Hr.
  - destruct (resolve_path ospath lp i path) as [path'|ex] eqn:Hpath.
    + destruct (join_archive ospath lp metadata i audio_archive) as [out o].
      eapply run_yield; [by econstructor|]. apply IH.
    + eapply run_silent; [by eapply step_raise|]. constructor.
  - eapply run_silent; [by constructor|]. apply IH.
Qed.

Lemma run_enumerating i rest metadata :
  run ospath lp archives (Enumerating i rest metadata)
    (join_archives ospath lp metadata i rest).1
    (Finished (join_archives ospath lp metadata i rest).2).
Proof.
  revert i. induction rest as [|audio_archive rest IH]; intros i.
  { eapply run_silent; constructor. }
  rewrite join_archives_cons. eapply run_silent; [constructor|].
  pose proof (run_iterating i audio_archive rest metadata) as Hrun.
  destruct (join_archive ospath lp metadata i audio_archive) as [out [|ex]]; [|done].
  specialize (IH (S i)).
  destruct (join_archives ospath lp metadata (S i) rest) as [out' o'].
  by eapply run_trans.
Qed.

(** [generate_examples] computes the one complete run of a pass. *)
Lemma generate_examples_run reader :
  run ospath lp archives (Reading reader ∅)
    (generate_examples ospath lp archives reader).1
    (Finished (generate_examples ospath lp archives reader).2).
Proof.
  unfold generate_examples. pose proof (run_reading reader ∅) as Hread.
  destruct (read_metadata reader ∅) as [metadata|ex]; [|done].
  change (join_archives ospath lp metadata 0 archives).1
    with ([] ++ (join_archives ospath lp metadata 0 archives).1)%list.
  eapply run_trans; [done|]. apply run_enumerating.
Qed.

End machine_facts.

(** ** Rows in the table *)

Section stored_facts.

Implicit Types (reader : list row) (metadata : table) (r : row).

Lemma stored_under_Some r key :
  stored_under r = Some key ↔ ∃ r', normalise_row r = Ok (key, r').
Proof.
  unfold stored_under. destruct (normalise_row r) as [[k r1]|ex]; split.
  - intros [= ->]. by exists r1.
  - by intros (r' & [= -> _]%Ok_inj).
  - done.
  - by intros (r' & ?).
Qed.

Lemma stored_under_path r :
  is_Some (stored_under r) ↔ ∃ p, r !! K "path" = Some (PyString p).
Proof.
  split.
  - intros [key (r' & (p & ? & _)%normalise_row_Ok)%stored_under_Some]. by exists p.
  - intros [p Hp]. exists (with_extension p). apply stored_under_Some.
    by apply normalise_row_total.
Qed.

Lemma read_metadata_keeps reader metadata metadata' key :
  read_metadata reader metadata = Ok metadata' →
  is_Some (metadata !! key) → is_Some (metadata' !! key).
Proof.
  revert metadata. induction reader as [|r reader IH]; intros metadata.
  { by intros [= ->]. }
  rewrite read_metadata_cons.
  destruct (normalise_row r) as [[k1 r1]|ex]; [|done]. rewrite bind_Ok.
  intros Hread Hsome. apply (IH _ Hread). rewrite lookup_insert_is_Some. cbn [fst].
  destruct (decide (k1 = key)); [by left|by right].
Qed.

Lemma read_metadata_stored reader metadata metadata' r key :
  read_metadata reader metadata = Ok metadata' →
  r ∈ reader → stored_under r = Some key → is_Some (metadata' !! key).
Proof.
  revert metadata. induction reader as [|r0 reader IH]; intros metadata.
  { by intros _ ?%elem_of_nil. }
  rewrite read_metadata_cons.
  destruct (normalise_row r0) as [[k1 r1]|ex] eqn:Hr0; [|done]. rewrite bind_Ok.
  intros Hread [->|Hin]%elem_of_cons Hkey; [|by eapply IH].
  apply (read_metadata_keeps _ _ _ _ Hread).
  apply stored_under_Some in Hkey as [r' Hr]. rewrite Hr0 in Hr.
  apply Ok_inj in Hr as [= -> _]. cbn [fst]. rewrite lookup_insert_eq. by eexists.
Qed.

Lemma Forall_not_stored reader key :
  Forall (λ r, stored_under r ≠ Some key) reader →
  Forall (λ r, ∀ r', normalise_row r ≠ Ok (key, r')) reader.
Proof.
  intros Hall. eapply Forall_impl; [exact Hall|].
  intros r Hne r' Hr. apply Hne, stored_under_Some. by exists r'.
Qed.

End stored_facts.

(** * The claims of the specification *)

(** ** Building the Metadata Table *)

(** C1. Every key of the Metadata Table ends with the audio-file extension
    and is the [path] of the row stored under it; a transcript row whose
    [path] lacks the extension is stored with the extension appended, under
    the path so extended. *)
Theorem metadata_keys_have_extension (reader : list row) (metadata : table) :
  read_metadata reader ∅ = Ok metadata →
  (∀ key r', metadata !! key = Some r' →
     PyStr.endswith key ".mp3" = true ∧ r' !! K "path" = Some (PyString key))
  ∧ (∀ r p, r ∈ reader → r !! K "path" = Some (PyString p) →
       PyStr.endswith p ".mp3" = false →
       ∃ r', normalise_row r = Ok (p +:+ ".mp3", r')
             ∧ r' !! K "path" = Some (PyString (p +:+ ".mp3"))
             ∧ is_Some (metadata !! (p +:+ ".mp3"))).
Proof.
  intros Hread. split.
  - intros key r' Hlook.
    destruct (read_metadata_lookup _ _ _ _ _ Hread Hlook) as [Hempty|(r & _ & Hr)].
    { by rewrite lookup_empty in Hempty. }
    split; [by eapply stored_key_endswith|by eapply stored_path].
  - intros r p Hin Hp Hext.
    destruct (normalise_row_total r p Hp) as [r' Hr].
    unfold with_extension in Hr. rewrite Hext in Hr.
    exists r'. split; [done|]. split; [by eapply stored_path|].
    eapply read_metadata_stored; [done..|]. apply stored_under_Some. by exists r'.
Qed.

Lemma metadata_keys_have_extension_witness :
  read_metadata sample.clip1_reader ∅ = Ok sample.clip1_table
  ∧ PyStr.endswith "clip1.mp3" ".mp3" = true
  ∧ sample.clip1_row !! K "path" = Some (PyString "clip1.mp3").
Proof.
  split; [by_computation|].
  destruct (metadata_keys_have_extension sample.clip1_reader sample.clip1_table)
    as [Hkeys _]; [by_computation|].
  apply (Hkeys "clip1.mp3" sample.clip1_row). by_computation.
Defined.

(** C4. A row that carries the legacy [accents] field is stored with the
    value under [accent] and without the legacy key; no row of the Metadata
    Table has the legacy key. *)
Theorem legacy_accents_migrated (reader : list row) (metadata : table) :
  read_metadata reader ∅ = Ok metadata →
  (∀ key r', metadata !! key = Some r' → r' !! K "accents" = None)
  ∧ (∀ reader1 r reader2 v,
       reader = reader1 ++ r :: reader2 → r !! K "accents" = Some v →
       ∃ key r', normalise_row r = Ok (key, r')
                 ∧ r' !! K "accent" = Some v
                 ∧ r' !! K "accents" = None
                 ∧ (Forall (λ r2, stored_under r2 ≠ Some key) reader2 →
                    metadata !! key = Some r')).
Proof.
  intros Hread. split.
  - intros key r' Hlook.
    destruct (read_metadata_lookup _ _ _ _ _ Hread Hlook) as [Hempty|(r & _ & Hr)].
    { by rewrite lookup_empty in Hempty. }
    by eapply stored_no_accents.
  - intros reader1 r reader2 v -> Hv.
    assert (is_Some (stored_under r)) as [key [r' Hr]%stored_under_Some].
    { apply stored_under_path.
      assert (Hall : Forall (λ r0 : row, ∃ p, r0 !! K "path" = Some (PyString p))
                       (reader1 ++ r :: reader2)).
      { apply (read_metadata_Ok _ ∅). by exists metadata. }
      by apply Forall_app in Hall as [_ [? _]%Forall_cons]. }
    exists key, r'. split; [done|].
    split; [by eapply stored_accent|]. split; [by eapply stored_no_accents|].
    intros Hlater. eapply read_metadata_last; [done..|]. by apply Forall_not_stored.
Qed.

Lemma legacy_accents_migrated_witness :
  read_metadata [sample.legacy_line] ∅ = Ok {[ "clip1.mp3" := sample.legacy_row ]}
  ∧ sample.legacy_line !! K "accents" = Some (PyString "us")
  ∧ sample.legacy_row !! K "accents" = None.
Proof.
  split; [by_computation|]. split; [by_computation|].
  destruct (legacy_accents_migrated [sample.legacy_line]
              {[ "clip1.mp3" := sample.legacy_row ]}) as [Hgone _]; [by_computation|].
  apply (Hgone "clip1.mp3"). by_computation.
Defined.

(** C6. When several rows of the transcript have the same path once the
    extension is appended, the Metadata Table holds the last of them under
    that key, and the rows before it cause no error: the table is built
    whenever every row on its own is accepted. *)
Theorem duplicate_paths_last_wins (reader1 : list row) (r : row) (reader2 : list row)
    (key : string) :
  Forall (λ r0, is_Some (stored_under r0)) (reader1 ++ r :: reader2) →
  stored_under r = Some key →
  Forall (λ r2, stored_under r2 ≠ Some key) reader2 →
  ∃ metadata r',
    read_metadata (reader1 ++ r :: reader2) ∅ = Ok metadata
    ∧ normalise_row r = Ok (key, r')
    ∧ metadata !! key = Some r'.
Proof.
  intros Hall [r' Hr]%stored_under_Some Hlater.
  destruct (proj2 (read_metadata_Ok (reader1 ++ r :: reader2) ∅)) as [metadata Hread].
  { eapply Forall_impl; [exact Hall|]. intros r0. apply stored_under_path. }
  exists metadata, r'. split; [done|]. split; [done|].
  eapply read_metadata_last; [done..|]. by apply Forall_not_stored.
Qed.

Lemma duplicate_paths_last_wins_witness :
  Forall (λ r0, stored_under r0 = Some "a.mp3") sample.twice_before
  ∧ stored_under sample.twice_last = Some "a.mp3"
  ∧ ∃ metadata,
      read_metadata (sample.twice_before ++ sample.twice_last :: sample.twice_after) ∅
        = Ok metadata
      ∧ metadata !! "a.mp3" = Some sample.twice_row.
Proof.
  split; [by_computation|]. split; [by_computation|].
  destruct (duplicate_paths_last_wins sample.twice_before sample.twice_last
              sample.twice_after "a.mp3") as (metadata & r' & Hread & Hr & Hlook);
    [by_computation..|].
  exists metadata. split; [done|]. rewrite Hlook. f_equal.
  assert (normalise_row sample.twice_last = Ok ("a.mp3", sample.twice_row)) as Hrow
    by by_computation.
  rewrite Hrow in Hr. by apply Ok_inj in Hr as [= <-].
Defined.

(** ** Joining the archives with the table *)

(** C2. An archive member whose base filename is not a key of the Metadata
    Table is skipped: the body of the loop yields nothing and raises
    nothing for it, the generator moves on to the next member, and the pass
    fares as it would had the archive not held that member. *)
Theorem unmatched_entry_skipped (ospath : os_path.t)
    (lp : option (list string)) (metadata : table)
    (i : nat) (path : string) (file : list Byte.byte) :
  metadata !! (os_path.split ospath path).2 = None →
  join_entry ospath lp metadata i (path, file) = Skip
  ∧ (∀ archives audio_archive rest,
       step ospath lp archives (Iterating i ((path, file) :: audio_archive) rest metadata)
         None (Iterating i audio_archive rest metadata))
  ∧ (∀ reader earlier before after later,
       read_metadata reader ∅ = Ok metadata → length earlier = i →
       generate_examples ospath lp (earlier ++ (before ++ (path, file) :: after) :: later) reader
       = generate_examples ospath lp (earlier ++ (before ++ after) :: later) reader).
Proof.
  intros Hnone.
  assert (join_entry ospath lp metadata i (path, file) = Skip) as Hskip.
  { by rewrite join_entry_unfold, Hnone. }
  split; [done|]. split; [intros; by constructor|].
  intros reader earlier before after later Hread <-.
  unfold generate_examples. rewrite Hread.
  apply join_archives_replace. by apply join_archive_skip.
Qed.

Lemma unmatched_entry_skipped_witness :
  sample.clip1_table !! (os_path.split unpatched sample.stray.1).2 = None
  ∧ generate_examples unpatched None [[sample.stray; ("en_train_0/clip1.mp3", [x01; x02])]]
      sample.clip1_reader
    = generate_examples unpatched None sample.clip1_archives sample.clip1_reader.
Proof.
  split; [by_computation|].
  destruct (unmatched_entry_skipped unpatched None sample.clip1_table 0
              "en_train_0/stray.mp3" [x03]) as (_ & _ & Hpass); [by_computation|].
  apply (Hpass sample.clip1_reader [] [] [("en_train_0/clip1.mp3", [x01; x02])] []);
    [by_computation|done].
Defined.

(** C3, as the code has it. Every emitted pair is emitted for a member of
    the archives whose base filename is a key of the Metadata Table, and
    its key is the resolved path of that member: the path of the member,
    joined to the prefix of its archive when prefixes are supplied. *)
Theorem emitted_keys_are_resolved_paths (ospath : os_path.t)
    (lp : option (list string)) (archives : list (list entry)) (reader : list row)
    (metadata : table) (key : string) (record : row) :
  read_metadata reader ∅ = Ok metadata →
  (key, record) ∈ (generate_examples ospath lp archives reader).1 →
  ∃ i audio_archive path file,
    archives !! i = Some audio_archive ∧ (path, file) ∈ audio_archive
    ∧ is_Some (metadata !! (os_path.split ospath path).2)
    ∧ if truthy lp
      then ∃ l prefix, lp = Some l ∧ l !! i = Some prefix
                       ∧ key = os_path.join ospath prefix path
      else key = path.
Proof.
  intros Hread. unfold generate_examples. rewrite Hread.
  intros (j & audio_archive & [path file] & Hj & Hin & Hyield)%join_archives_elem.
  apply join_entry_Yield in Hyield as (r & Hr & Hpath & _).
  exists j, audio_archive, path, file. split; [done|]. split; [done|].
  split; [by eexists|]. by apply resolve_path_Ok in Hpath.
Qed.

Lemma emitted_keys_are_resolved_paths_witness :
  read_metadata sample.clip1_reader ∅ = Ok sample.clip1_table
  ∧ ∃ i audio_archive path file,
      sample.clip1_archives !! i = Some audio_archive ∧ (path, file) ∈ audio_archive
      ∧ is_Some (sample.clip1_table !! (os_path.split unpatched path).2)
      ∧ "/cache/extracted/0/en_train_0/clip1.mp3"
        = os_path.join unpatched "/cache/extracted/0" path.
Proof.
  split; [by_computation|].
  destruct (emitted_keys_are_resolved_paths unpatched (Some ["/cache/extracted/0"])
              sample.clip1_archives sample.clip1_reader sample.clip1_table
              "/cache/extracted/0/en_train_0/clip1.mp3"
              (sample.clip1_record "/cache/extracted/0/en_train_0/clip1.mp3"))
    as (i & audio_archive & path & file & Hi & Hin & Hsome & Hkey); [by_computation..|].
  exists i, audio_archive, path, file. split; [done|]. split; [done|]. split; [done|].
  cbn [truthy] in Hkey. destruct Hkey as (l & prefix & [= <-] & Hprefix & ->).
  destruct i as [|[|i]]; [|done..]. by injection Hprefix as <-.
Defined.

(** C3, as stated, fails on the first scenario of the specification: the
    pair emitted for [en_train_0/clip1.mp3] has that path as its key, which
    is neither a key of the Metadata Table nor a base filename of a member. *)
Lemma emitted_key_not_a_table_key :
  read_metadata sample.clip1_reader ∅ = Ok sample.clip1_table
  ∧ generate_examples unpatched None sample.clip1_archives sample.clip1_reader
    = ([("en_train_0/clip1.mp3", sample.clip1_record "en_train_0/clip1.mp3")], Exhausted)
  ∧ sample.clip1_table !! "en_train_0/clip1.mp3" = None
  ∧ "en_train_0/clip1.mp3"
      ∉ (λ e : entry, (os_path.split unpatched e.1).2) <$> concat sample.clip1_archives.
Proof. repeat split; by_computation. Qed.

(** The backfill, where it works. A schema field other than [audio] whose
    key a transcript row does not have is the empty string in the Output
    Record emitted for a member matching that row, provided the row is the
    last of the transcript under its key and, for [accent], that it does
    not carry the legacy [accents] field. *)
Theorem absent_fields_backfilled (reader1 : list row) (r : row) (reader2 : list row)
    (metadata : table) (key : string) (ospath : os_path.t)
    (lp : option (list string)) (i : nat)
    (path : string) (file : list Byte.byte) (final : string) (record : row)
    (field : string) :
  read_metadata (reader1 ++ r :: reader2) ∅ = Ok metadata →
  stored_under r = Some key →
  Forall (λ r2, stored_under r2 ≠ Some key) reader2 →
  (os_path.split ospath path).2 = key →
  join_entry ospath lp metadata i (path, file) = Yield final record →
  field ∈ data_fields → r !! K field = None →
  field ≠ "audio" →
  ¬ (field = "accent" ∧ is_Some (r !! K "accents")) →
  record !! K field = Some (PyString "").
Proof.
  intros Hread [r' Hr]%stored_under_Some Hlater Hkey Hyield Hfield Habsent Haudio Hacc.
  assert (metadata !! key = Some r') as Hlook.
  { eapply read_metadata_last; [done..|]. by apply Forall_not_stored. }
  apply join_entry_Yield in Hyield as (r0 & Hr0 & _ & ->).
  rewrite Hkey, Hlook in Hr0. injection Hr0 as <-.
  assert (field ≠ "path").
  { intros ->. apply normalise_row_Ok in Hr as (p & Hp & _). congruence. }
  rewrite !lookup_insert_ne by congruence.
  by eapply stored_absent.
Qed.

Lemma absent_fields_backfilled_witness :
  sample.legacy_line !! K "age" = None
  ∧ join_entry unpatched None {[ "clip1.mp3" := sample.legacy_row ]} 0 ("clip1.mp3", [x01])
    = Yield "clip1.mp3" sample.legacy_record
  ∧ sample.legacy_record !! K "age" = Some (PyString "").
Proof.
  split; [by_computation|]. split; [by_computation|].
  apply (absent_fields_backfilled [] sample.legacy_line []
           {[ "clip1.mp3" := sample.legacy_row ]} "clip1.mp3" unpatched None 0
           "clip1.mp3" [x01] "clip1.mp3" sample.legacy_record "age");
    by_computation.
Defined.

(** Two schema fields are set on purpose after the row is read: on a line
    with the columns [path] and [accents], the Output Record holds the
    audio object under [audio] (line 196) and the value of the legacy
    column under [accent] (line 181). *)
Lemma absent_fields_not_all_empty :
  "audio" ∈ data_fields ∧ sample.legacy_line !! K "audio" = None
  ∧ "accent" ∈ data_fields ∧ sample.legacy_line !! K "accent" = None
  ∧ generate_examples unpatched None [[("clip1.mp3", [x01])]] [sample.legacy_line]
    = ([("clip1.mp3", sample.legacy_record)], Exhausted)
  ∧ sample.legacy_record !! K "audio" = Some (PyAudio "clip1.mp3" [x01])
  ∧ sample.legacy_record !! K "accent" = Some (PyString "us").
Proof. repeat split; by_computation. Qed.

(** C5, on a line shorter than the header. The line names no [age]: the
    reader stores [None] under that column, the test [field not in row] of
    line 185 is false for it, and the Output Record holds [None] where the
    comment of line 183 and the claim promise the empty string. *)
Theorem short_line_field_not_filled :
  "age" ∈ data_fields
  ∧ sample.short_reader = [sample.short_line]
  ∧ sample.short_line !! K "age" = Some PyNone
  ∧ read_metadata sample.short_reader ∅
    = Ok {[ "clip1.mp3" := <[K "audio" := PyString ""]> (sample.short_record "clip1.mp3" []) ]}
  ∧ generate_examples unpatched None [[("clip1.mp3", [x01])]] sample.short_reader
    = ([("clip1.mp3", sample.short_record "clip1.mp3" [x01])], Exhausted)
  ∧ sample.short_record "clip1.mp3" [x01] !! K "age" = Some PyNone
  ∧ sample.short_record "clip1.mp3" [x01] !! K "gender" = Some (PyString "").
Proof. repeat split; by_computation. Qed.

(** The same holds whatever [os.path] is bound to: a value the table
    holds under a field other than [path] and [audio] goes into the
    record as it is, [None] included. *)
Lemma record_copies_row (ospath : os_path.t) (lp : option (list string))
    (metadata : table) (i : nat) (path : string) (file : list Byte.byte)
    (final : string) (record r : row) (field : string) :
  metadata !! (os_path.split ospath path).2 = Some r →
  join_entry ospath lp metadata i (path, file) = Yield final record →
  field ≠ "path" → field ≠ "audio" →
  record !! K field = r !! K field.
Proof.
  intros Hr (r0 & Hr0 & _ & ->)%join_entry_Yield ??.
  rewrite Hr in Hr0. injection Hr0 as <-. by rewrite !lookup_insert_ne by congruence.
Qed.

(** C7. For a member whose base filename is a key of the Metadata Table,
    the final path is [os.path.join] of the prefix of its archive and its
    path when a prefix is supplied, and its path as it is when no prefix
    list is; the pair emitted is the final path with a copy of the row that
    holds the final path under [path] and the final path with the content
    of the member under [audio]; a pass that runs to its end yields it. *)
Theorem matching_entry_emitted (ospath : os_path.t)
    (lp : option (list string)) (metadata : table)
    (i : nat) (path : string) (file : list Byte.byte) (r : row) :
  metadata !! (os_path.split ospath path).2 = Some r →
  let record final := <[K "path" := PyString final]> (<[K "audio" := PyAudio final file]> r) in
  (∀ l prefix, lp = Some l → l !! i = Some prefix →
     join_entry ospath lp metadata i (path, file)
     = Yield (os_path.join ospath prefix path) (record (os_path.join ospath prefix path)))
  ∧ (truthy lp = false →
     join_entry ospath lp metadata i (path, file) = Yield path (record path))
  ∧ (∀ final, record final !! K "path" = Some (PyString final)
              ∧ record final !! K "audio" = Some (PyAudio final file)
              ∧ ∀ k, k ≠ K "path" → k ≠ K "audio" → record final !! k = r !! k)
  ∧ (∀ archives audio_archive final,
       archives !! i = Some audio_archive → (path, file) ∈ audio_archive →
       join_entry ospath lp metadata i (path, file) = Yield final (record final) →
       (join_archives ospath lp metadata 0 archives).2 = Exhausted →
       (final, record final) ∈ (join_archives ospath lp metadata 0 archives).1).
Proof.
  intros Hr record. repeat split.
  - intros l prefix -> Hprefix. rewrite join_entry_unfold, Hr, resolve_path_cases.
    destruct l as [|p l]; [done|]. by rewrite Hprefix.
  - intros Hfalse. rewrite join_entry_unfold, Hr, resolve_path_cases.
    by destruct lp as [[|p l]|].
  - apply lookup_insert_eq.
  - unfold record. by rewrite lookup_insert_ne, lookup_insert_eq.
  - intros k ??. unfold record. by rewrite !lookup_insert_ne.
  - intros archives audio_archive final Hi Hin Hyield Hend.
    by eapply (join_archives_complete ospath lp metadata 0 archives i).
Qed.

Lemma matching_entry_emitted_witness :
  sample.clip1_table !! (os_path.split unpatched "en_train_0/clip1.mp3").2 = Some sample.clip1_row
  ∧ join_entry unpatched (Some ["/cache/extracted/0"]) sample.clip1_table 0
      ("en_train_0/clip1.mp3", [x01; x02])
    = Yield "/cache/extracted/0/en_train_0/clip1.mp3"
        (sample.clip1_record "/cache/extracted/0/en_train_0/clip1.mp3").
Proof.
  split; [by_computation|].
  destruct (matching_entry_emitted unpatched (Some ["/cache/extracted/0"]) sample.clip1_table 0
              "en_train_0/clip1.mp3" [x01; x02] sample.clip1_row) as (Hjoin & _);
    [by_computation|].
  rewrite (Hjoin ["/cache/extracted/0"] "/cache/extracted/0") by done.
  by_computation.
Defined.

(** C9. In every pair emitted, the key, the [path] field of the record and
    the path of its [audio] field are one and the same string. *)
Theorem emitted_paths_agree (ospath : os_path.t)
    (lp : option (list string)) (archives : list (list entry))
    (reader : list row) (key : string) (record : row) :
  (key, record) ∈ (generate_examples ospath lp archives reader).1 →
  record !! K "path" = Some (PyString key)
  ∧ ∃ bytes, record !! K "audio" = Some (PyAudio key bytes).
Proof.
  unfold generate_examples.
  destruct (read_metadata reader ∅) as [metadata|ex]; [|by intros ?%elem_of_nil].
  intros (j & audio_archive & [path file] & _ & _ & Hyield)%join_archives_elem.
  apply join_entry_Yield in Hyield as (r & _ & _ & ->).
  split; [apply lookup_insert_eq|]. exists file.
  by rewrite lookup_insert_ne, lookup_insert_eq.
Qed.

Lemma emitted_paths_agree_witness :
  sample.clip1_record "/cache/extracted/0/en_train_0/clip1.mp3" !! K "path"
    = Some (PyString "/cache/extracted/0/en_train_0/clip1.mp3")
  ∧ ∃ bytes, sample.clip1_record "/cache/extracted/0/en_train_0/clip1.mp3" !! K "audio"
             = Some (PyAudio "/cache/extracted/0/en_train_0/clip1.mp3" bytes).
Proof.
  apply (emitted_paths_agree unpatched (Some ["/cache/extracted/0"]) sample.clip1_archives
           sample.clip1_reader).
  by_computation.
Defined.

(** C10. The prefix list is used all or nothing, by the index of the
    archive. When a truthy list has at least as many prefixes as there are
    archives and the table is built: for every member of the archive at
    index [i] whose base filename is in the table the pass emits a pair,
    whose key is the path of the member joined to the prefix at index [i]
    when the list is truthy, and the path as it is when the list is [None]
    or empty; every pair emitted is of this kind; and the pass ends
    without raising, so the lookup of the prefix is always in bounds. *)
Theorem prefix_lookup_in_bounds (ospath : os_path.t)
    (lp : option (list string)) (archives : list (list entry)) (reader : list row)
    (metadata : table) :
  (∀ l, lp = Some l → l ≠ [] → length archives ≤ length l) →
  read_metadata reader ∅ = Ok metadata →
  (∀ i audio_archive path file r,
     archives !! i = Some audio_archive → (path, file) ∈ audio_archive →
     metadata !! (os_path.split ospath path).2 = Some r →
     ∃ final,
       (if truthy lp
        then ∃ l prefix, lp = Some l ∧ l !! i = Some prefix
                         ∧ final = os_path.join ospath prefix path
        else final = path)
       ∧ (final, <[K "path" := PyString final]> (<[K "audio" := PyAudio final file]> r))
           ∈ (generate_examples ospath lp archives reader).1)
  ∧ (∀ key record,
       (key, record) ∈ (generate_examples ospath lp archives reader).1 →
       ∃ i audio_archive path file,
         archives !! i = Some audio_archive ∧ (path, file) ∈ audio_archive
         ∧ if truthy lp
           then ∃ l prefix, lp = Some l ∧ l !! i = Some prefix
                            ∧ key = os_path.join ospath prefix path
           else key = path)
  ∧ (generate_examples ospath lp archives reader).2 = Exhausted.
Proof.
  intros Hlen Hread. unfold generate_examples. rewrite Hread.
  assert (Hresolve : ∀ i path, i < length archives →
            ∃ final, resolve_path ospath lp i path = Ok final).
  { intros i path Hi. rewrite resolve_path_cases.
    destruct lp as [[|p l]|]; try by eexists.
    destruct (lookup_lt_is_Some_2 (p :: l) i) as [prefix ->]; [|by eexists].
    pose proof (Hlen (p :: l) eq_refl) as Hle.
    assert (p :: l ≠ []) as Hne by done. specialize (Hle Hne). lia. }
  assert ((join_archives ospath lp metadata 0 archives).2 = Exhausted) as Hend.
  { apply join_archives_exhausted.
    intros j audio_archive [path file] ex Hj _ [_ Herr]%join_entry_Raise.
    apply lookup_lt_Some in Hj. destruct (Hresolve (0 + j) path Hj) as [final Hfinal].
    congruence. }
  split; [|split; [|done]].
  - intros i audio_archive path file r Hi Hin Hr.
    destruct (Hresolve i path) as [final Hfinal]; [by eapply lookup_lt_Some|].
    exists final. split; [by apply resolve_path_Ok|].
    eapply (join_archives_complete ospath lp metadata 0 archives i); [done..|].
    apply join_entry_Yield. by exists r.
  - intros key record
      (j & audio_archive & [path file] & Hj & Hin & Hyield)%join_archives_elem.
    apply join_entry_Yield in Hyield as (r & _ & Hpath & _).
    exists j, audio_archive, path, file. split; [done|]. split; [done|].
    by apply resolve_path_Ok in Hpath.
Qed.

Lemma prefix_lookup_in_bounds_witness :
  (∀ l, Some ["/x/0"; "/x/1"] = Some l → l ≠ [] → 2 ≤ length l)
  ∧ read_metadata sample.clip1_reader ∅ = Ok sample.clip1_table
  ∧ (generate_examples unpatched (Some ["/x/0"; "/x/1"])
       [[sample.stray]; [("d/clip1.mp3", [x02])]] sample.clip1_reader)
    = ([("/x/1/d/clip1.mp3",
         <[K "path" := PyString "/x/1/d/clip1.mp3"]>
           (<[K "audio" := PyAudio "/x/1/d/clip1.mp3" [x02]]> sample.clip1_row))],
       Exhausted).
Proof.
  assert (Hlen : ∀ l, Some ["/x/0"; "/x/1"] = Some l → l ≠ [] → 2 ≤ length l).
  { intros l [= <-] _. by_computation. }
  split; [done|]. split; [by_computation|].
  destruct (prefix_lookup_in_bounds unpatched (Some ["/x/0"; "/x/1"])
              [[sample.stray]; [("d/clip1.mp3", [x02])]] sample.clip1_reader
              sample.clip1_table Hlen) as (Hemit & _ & Hend); [by_computation|].
  destruct (Hemit 1 [("d/clip1.mp3", [x02])] "d/clip1.mp3" [x02] sample.clip1_row)
    as (final & Hfinal & Hin); [by_computation..|].
  by_computation.
Defined.

(** Without the bound the lookup can leave the list: with one prefix and
    two archives, a matching member of the second archive ends the pass. *)
Example prefix_list_too_short :
  generate_examples unpatched (Some ["/cache/extracted/0"])
    [[]; [("en_train_1/clip1.mp3", [x01; x02])]] sample.clip1_reader
  = ([], Raised IndexError).
Proof. by_computation. Qed.

(** ** Determinism *)

(** C8. A pass over a given transcript, given archives and a given prefix
    list has one complete run: two complete runs yield the same pairs in
    the same order and end the same way, as [generate_examples] computes
    them. *)
Theorem generation_deterministic (ospath : os_path.t)
    (lp : option (list string))
    (archives : list (list entry)) (reader : list row)
    (out1 out2 : list (string * row)) (o1 o2 : outcome) :
  run ospath lp archives (Reading reader ∅) out1 (Finished o1) →
  run ospath lp archives (Reading reader ∅) out2 (Finished o2) →
  out1 = out2 ∧ o1 = o2 ∧ (out1, o1) = generate_examples ospath lp archives reader.
Proof.
  intros H1 H2. pose proof (generate_examples_run ospath lp archives reader) as H0.
  destruct (run_deterministic _ _ _ _ _ _ _ _ H1 H2) as [-> ->].
  destruct (run_deterministic _ _ _ _ _ _ _ _ H2 H0) as [-> ->].
  by destruct (generate_examples ospath lp archives reader).
Qed.

Lemma generation_deterministic_witness :
  let out := [("en_train_0/clip1.mp3", sample.clip1_record "en_train_0/clip1.mp3")] in
  run unpatched None sample.clip1_archives (Reading sample.clip1_reader ∅) out
    (Finished Exhausted)
  ∧ (out, Exhausted) = generate_examples unpatched None sample.clip1_archives sample.clip1_reader.
Proof.
  intros out.
  assert (run unpatched None sample.clip1_archives (Reading sample.clip1_reader ∅) out
            (Finished Exhausted)) as Hrun.
  { pose proof (generate_examples_run unpatched None sample.clip1_archives sample.clip1_reader)
      as Hrun.
    by rewrite scenario_clip1 in Hrun. }
  split; [done|].
  by destruct (generation_deterministic unpatched None sample.clip1_archives sample.clip1_reader
                 out out Exhausted Exhausted Hrun Hrun) as (_ & _ & ?).
Defined.

(** * Further properties of the joiner *)

(** ** The reading loop *)

Lemma read_metadata_size (reader : list row) (metadata metadata' : table) :
  read_metadata reader metadata = Ok metadata' →
  size metadata' ≤ size metadata + length reader.
Proof.
  revert metadata. induction reader as [|r reader IH]; intros metadata.
  { intros [= ->]. cbn [length]. lia. }
  rewrite read_metadata_cons.
  destruct (normalise_row r) as [[k1 r1]|ex]; [|done]. rewrite bind_Ok.
  intros Hread%IH. cbn [fst snd length] in *.
  pose proof (map_size_insert k1 r1 metadata) as Hsize.
  destruct (metadata !! k1); unfold id in Hsize; lia.
Qed.

(** X1. The keys of the Metadata Table are exactly the normalised paths of
    the transcript rows, and the table has at most one row per transcript
    row. *)
Theorem table_keys_are_stored_paths (reader : list row) (metadata : table) :
  read_metadata reader ∅ = Ok metadata →
  (∀ key, is_Some (metadata !! key) ↔ ∃ r, r ∈ reader ∧ stored_under r = Some key)
  ∧ size metadata ≤ length reader.
Proof.
  intros Hread. split.
  - intros key. split.
    + intros [r' Hlook].
      destruct (read_metadata_lookup _ _ _ _ _ Hread Hlook) as [Hempty|(r & ? & Hr)].
      { by rewrite lookup_empty in Hempty. }
      exists r. split; [done|]. apply stored_under_Some. by exists r'.
    + intros (r & ? & ?). by eapply read_metadata_stored.
  - apply read_metadata_size in Hread. by rewrite map_size_empty in Hread.
Qed.

Lemma table_keys_are_stored_paths_witness :
  read_metadata (sample.twice_before ++ sample.twice_last :: sample.twice_after) ∅
    = Ok {[ "a.mp3" := sample.twice_row;
            "b.mp3" := <[K "path" := PyString "b.mp3"]>
                         (<[K "sentence" := PyString "fourth"]> sample.twice_row) ]}
  ∧ size ({[ "a.mp3" := sample.twice_row;
             "b.mp3" := <[K "path" := PyString "b.mp3"]>
                          (<[K "sentence" := PyString "fourth"]> sample.twice_row) ]}
          : table) ≤ 4.
Proof.
  split; [by_computation|].
  refine (proj2 (table_keys_are_stored_paths
                   (sample.twice_before ++ sample.twice_last :: sample.twice_after) _ _)).
  by_computation.
Defined.

Lemma stored_under_None (r : row) :
  stored_under r = None →
  normalise_row r = Err match r !! K "path" with
                        | None => KeyError "path"
                        | Some _ => AttributeError
                        end.
Proof.
  intros Hnone.
  assert (¬ ∃ p, r !! K "path" = Some (PyString p)) as Hpath.
  { intros Hp%stored_under_path. rewrite Hnone in Hp. by destruct Hp. }
  unfold normalise_row, add_extension.
  destruct (r !! K "path") as [[| p | |]|]; try done.
  destruct Hpath. by exists p.
Qed.

(** X2. The reading loop stops at the first row that has no string under
    [path]: the pass raises [KeyError] when the row has no such key and
    [AttributeError] when it holds something else there, and nothing is
    emitted, whatever the archives hold. *)
Theorem reading_stops_at_first_rejected_row (ospath : os_path.t)
    (lp : option (list string))
    (archives : list (list entry)) (good : list row) (bad : row) (rest : list row) :
  Forall (λ r, is_Some (stored_under r)) good →
  stored_under bad = None →
  generate_examples ospath lp archives (good ++ bad :: rest)
  = ([], Raised match bad !! K "path" with
                | None => KeyError "path"
                | Some _ => AttributeError
                end).
Proof.
  intros Hgood Hbad. unfold generate_examples. rewrite read_metadata_app.
  destruct (proj2 (read_metadata_Ok good ∅)) as [metadata ->].
  { eapply Forall_impl; [exact Hgood|]. intros r. apply stored_under_path. }
  by rewrite bind_Ok, read_metadata_cons, (stored_under_None _ Hbad).
Qed.

Lemma reading_stops_at_first_rejected_row_witness :
  Forall (λ r, is_Some (stored_under r)) sample.clip1_reader
  ∧ stored_under (dict_of_line ["client_id"; "path"] ["abc"]) = None
  ∧ generate_examples unpatched None sample.clip1_archives
      (sample.clip1_reader ++ dict_of_line ["client_id"; "path"] ["abc"]
         :: sample.twice_after)
    = ([], Raised AttributeError).
Proof.
  split; [by_computation|]. split; [by_computation|].
  rewrite (reading_stops_at_first_rejected_row unpatched None sample.clip1_archives
             sample.clip1_reader (dict_of_line ["client_id"; "path"] ["abc"])
             sample.twice_after); by_computation.
Defined.

Lemma with_extension_idemp (p : string) :
  with_extension (with_extension p) = with_extension p.
Proof.
  unfold with_extension at 1. by rewrite with_extension_endswith.
Qed.

(** X3. Normalising is idempotent: the loop body applied to a row it has
    already stored gives the same key and the same row. *)
Theorem normalise_row_idempotent (r r' : row) (key : string) :
  normalise_row r = Ok (key, r') → normalise_row r' = Ok (key, r').
Proof.
  intros Hr. apply normalise_row_Ok. exists key.
  split; [by eapply stored_path|].
  assert (with_extension key = key) as Hkey.
  { unfold with_extension. by rewrite (stored_key_endswith _ _ _ Hr). }
  split; [done|].
  rewrite insert_id by by eapply stored_path.
  assert (rename_accents r' = r') as ->.
  { unfold rename_accents. by rewrite (stored_no_accents _ _ _ Hr). }
  apply map_eq. intros k. rewrite fill_missing_lookup.
  destruct (r' !! k) as [v|] eqn:Hk; [done|].
  case_bool_decide as Hin; [|done].
  apply list_elem_of_fmap in Hin as (field & -> & Hfield).
  destruct (stored_field _ _ _ Hr field Hfield) as [v Hv]. congruence.
Qed.

Lemma normalise_row_idempotent_witness :
  normalise_row sample.legacy_line = Ok ("clip1.mp3", sample.legacy_row)
  ∧ normalise_row sample.legacy_row = Ok ("clip1.mp3", sample.legacy_row).
Proof.
  assert (normalise_row sample.legacy_line = Ok ("clip1.mp3", sample.legacy_row))
    as Hr by by_computation.
  split; [done|]. by apply (normalise_row_idempotent sample.legacy_line).
Defined.

(** ** The records emitted *)

Lemma schema_fields_named :
  K "path" ∈ K <$> data_fields ∧ K "audio" ∈ K <$> data_fields
  ∧ K "accent" ∈ K <$> data_fields ∧ K "accents" ∉ K <$> data_fields.
Proof. repeat split; by_computation. Qed.

(** The keys of a stored row: those it came with, less the legacy one, and
    the schema fields. *)
Lemma stored_dom (r r' : row) (key : string) :
  normalise_row r = Ok (key, r') →
  dom r' = (dom r ∖ {[K "accents"]}) ∪ list_to_set (K <$> data_fields).
Proof.
  intros (p & Hp & -> & ->)%normalise_row_Ok.
  destruct schema_fields_named as (Hpath & _ & Haccent & Haccents).
  apply set_eq. intros k.
  rewrite elem_of_union, elem_of_difference, !elem_of_dom, elem_of_list_to_set,
    not_elem_of_singleton, fill_missing_lookup.
  destruct (decide (k ∈ K <$> data_fields)) as [Hin|Hout].
  { rewrite bool_decide_eq_true_2 by done. split; [by right|].
    intros _. destruct (_ !! k); by eexists. }
  rewrite bool_decide_eq_false_2 by done.
  assert (k ≠ K "path") by (by intros ->). assert (k ≠ K "accent") by (by intros ->).
  assert (is_Some (rename_accents (<[K "path" := PyString (with_extension p)]> r) !! k)
          ↔ is_Some (r !! k) ∧ k ≠ K "accents") as Hiff.
  { rewrite rename_accents_lookup, (lookup_insert_ne _ (K "path") (K "accents")) by done.
    destruct (r !! K "accents") as [v|] eqn:Hv.
    - destruct (decide (k = K "accents")) as [->|].
      + split; [by intros []|by intros [_ []]].
      + rewrite decide_False, lookup_insert_ne by done. by split; [|intros []].
    - rewrite lookup_insert_ne by done. split; [|by intros []].
      intros Hsome. split; [done|]. intros ->. rewrite Hv in Hsome. by destruct Hsome. }
  destruct (rename_accents _ !! k) as [v|] eqn:Hk.
  - split; [intros _; left; by apply Hiff|by eexists].
  - split; [by intros []|]. intros [Hleft|?]; [|done]. by apply Hiff in Hleft.
Qed.

(** X4. Every emitted record comes from a row of the transcript stored
    under the base filename of the member it is emitted for: its keys are
    the columns of that row, less [accents], and all the schema fields, and
    a value the row holds under a column other than [path], [audio],
    [accent] and [accents] is in the record unchanged. *)
Theorem record_from_row (ospath : os_path.t)
    (lp : option (list string)) (archives : list (list entry))
    (reader : list row) (key : string) (record : row) :
  (key, record) ∈ (generate_examples ospath lp archives reader).1 →
  ∃ audio_archive path file r,
    audio_archive ∈ archives ∧ (path, file) ∈ audio_archive
    ∧ r ∈ reader
    ∧ stored_under r = Some (os_path.split ospath path).2
    ∧ dom record = (dom r ∖ {[K "accents"]}) ∪ list_to_set (K <$> data_fields)
    ∧ ∀ field v, field ∉ ["path"; "audio"; "accent"; "accents"] →
                 r !! K field = Some v → record !! K field = Some v.
Proof.
  unfold generate_examples.
  destruct (read_metadata reader ∅) as [metadata|ex] eqn:Hread; [|by intros ?%elem_of_nil].
  intros (j & audio_archive & [path file] & Hj & Hmember & Hyield)%join_archives_elem.
  apply join_entry_Yield in Hyield as (r0 & Hr0 & _ & ->).
  destruct (read_metadata_lookup _ _ _ _ _ Hread Hr0) as [Hempty|(r & Hin & Hr)].
  { by rewrite lookup_empty in Hempty. }
  exists audio_archive, path, file, r.
  split; [by eapply list_elem_of_lookup_2|]. split; [done|]. split; [done|]. split.
  { apply stored_under_Some. by exists r0. }
  destruct schema_fields_named as (Hp & Ha & _). split.
  - rewrite !dom_insert_L, (stored_dom _ _ _ Hr).
    rewrite (subseteq_union_1_L {[K "audio"]}), (subseteq_union_1_L {[K "path"]});
      [done|apply singleton_subseteq_l, elem_of_union_r; by apply elem_of_list_to_set..].
  - intros field v Hfield Hv.
    rewrite !lookup_insert_ne by (intros [= <-]; apply Hfield; by_computation).
    eapply stored_present; [done| | | |done];
      intros ->; apply Hfield; by_computation.
Qed.

Lemma record_from_row_witness :
  ∃ r, r ∈ sample.clip1_reader
       ∧ stored_under r = Some "clip1.mp3"
       ∧ ∀ v, r !! K "sentence" = Some v →
              sample.clip1_record "en_train_0/clip1.mp3" !! K "sentence" = Some v.
Proof.
  destruct (record_from_row unpatched None sample.clip1_archives sample.clip1_reader
              "en_train_0/clip1.mp3" (sample.clip1_record "en_train_0/clip1.mp3"))
    as (audio_archive & path & file & r & Harchive & Hmember & Hin & Hkey & _ & Hval);
    [by_computation|].
  exists r. split; [done|]. split.
  - apply list_elem_of_singleton in Harchive as ->.
    apply list_elem_of_singleton in Hmember as [= -> ->]. rewrite Hkey. by_computation.
  - intros v. apply Hval. by_computation.
Defined.

(** ** The order of emission *)

Lemma join_archive_streaming (ospath : os_path.t)
    (lp : option (list string)) (metadata : table) (i : nat)
    (audio_archive : list entry) :
  truthy lp = false →
  (join_archive ospath lp metadata i audio_archive).1.*1
    = filter (λ path, is_Some (metadata !! (os_path.split ospath path).2)) audio_archive.*1
  ∧ (join_archive ospath lp metadata i audio_archive).2 = Exhausted.
Proof.
  intros Hlp. induction audio_archive as [|[path file] rest [IHout IHend]]; [done|].
  rewrite join_archive_cons, join_entry_unfold, resolve_path_cases, fmap_cons, filter_cons.
  cbn [fst].
  assert (match lp with
          | Some ((_ :: _) as l) =>
              match l !! i with
              | Some prefix => Ok (os_path.join ospath prefix path)
              | None => Err IndexError
              end
          | _ => Ok path
          end = Ok path) as -> by (by destruct lp as [[|]|]).
  destruct (metadata !! (os_path.split ospath path).2) as [r|] eqn:Hr.
  - rewrite decide_True by by eexists.
    destruct (join_archive ospath lp metadata i rest) as [out o]. cbn [fst snd] in *.
    by rewrite fmap_cons, IHout.
  - rewrite decide_False by (by intros []). done.
Qed.

(** X5. Without extraction prefixes (streaming, or an empty prefix list) a
    pass never raises once the table is built, and the keys it emits are the
    paths of the members whose base filename is in the table, once per
    member, in the order of the archives and of the members in them. *)
Theorem streaming_keys_in_archive_order (ospath : os_path.t)
    (lp : option (list string))
    (archives : list (list entry)) (reader : list row) (metadata : table) :
  truthy lp = false →
  read_metadata reader ∅ = Ok metadata →
  (generate_examples ospath lp archives reader).1.*1
    = filter (λ path, is_Some (metadata !! (os_path.split ospath path).2)) (mjoin archives).*1
  ∧ (generate_examples ospath lp archives reader).2 = Exhausted.
Proof.
  intros Hlp Hread. unfold generate_examples. rewrite Hread. generalize 0.
  induction archives as [|a rest IH]; intros i; [done|].
  rewrite join_archives_cons.
  destruct (join_archive_streaming ospath lp metadata i a Hlp) as [Hout Hend].
  destruct (join_archive ospath lp metadata i a) as [out o]. cbn [fst snd] in *. subst o.
  destruct (IH (S i)) as [IHout IHend].
  destruct (join_archives ospath lp metadata (S i) rest) as [out' o']. cbn [fst snd] in *.
  split; [|done]. cbn [mjoin list_join].
  by rewrite !fmap_app, filter_app, Hout, IHout.
Qed.

Lemma streaming_keys_in_archive_order_witness :
  read_metadata sample.clip1_reader ∅ = Ok sample.clip1_table
  ∧ (generate_examples unpatched (Some [])
       [[sample.stray; ("b/clip1.mp3", [x01])]; [("a/clip1.mp3", [x02]); sample.stray]]
       sample.clip1_reader).1.*1
    = ["b/clip1.mp3"; "a/clip1.mp3"].
Proof.
  split; [by_computation|].
  destruct (streaming_keys_in_archive_order unpatched (Some [])
              [[sample.stray; ("b/clip1.mp3", [x01])]; [("a/clip1.mp3", [x02]); sample.stray]]
              sample.clip1_reader sample.clip1_table) as [-> _]; by_computation.
Defined.

(** ** How a pass ends *)

Section raising.

Context (ospath : os_path.t) (lp : option (list string)) (metadata : table).

Lemma join_archive_raised i audio_archive ex :
  (join_archive ospath lp metadata i audio_archive).2 = Raised ex →
  ∃ e, e ∈ audio_archive ∧ join_entry ospath lp metadata i e = Raise ex.
Proof.
  induction audio_archive as [|e rest IH]; [done|].
  rewrite join_archive_cons.
  destruct (join_entry ospath lp metadata i e) as [|k1 r1|ex'] eqn:He.
  - intros (e' & ? & ?)%IH. exists e'. split; [by apply list_elem_of_further|done].
  - destruct (join_archive ospath lp metadata i rest) as [out o]. cbn [snd] in *.
    intros (e' & ? & ?)%IH. exists e'. split; [by apply list_elem_of_further|done].
  - intros [= <-]. exists e. split; [apply list_elem_of_here|done].
Qed.

Lemma join_archives_raised i archives ex :
  (join_archives ospath lp metadata i archives).2 = Raised ex →
  ∃ j audio_archive e, archives !! j = Some audio_archive ∧ e ∈ audio_archive
                       ∧ join_entry ospath lp metadata (i + j) e = Raise ex.
Proof.
  revert i. induction archives as [|a rest IH]; intros i; [done|].
  rewrite join_archives_cons.
  pose proof (join_archive_raised i a) as Ha.
  destruct (join_archive ospath lp metadata i a) as [out [|ex']]; cbn [snd] in *.
  - pose proof (IH (S i)) as Hrest.
    destruct (join_archives ospath lp metadata (S i) rest) as [out' o']. cbn [snd] in *.
    intros (j & a' & e & ? & ? & ?)%Hrest.
    exists (S j), a', e. by rewrite Nat.add_succ_r.
  - intros [= ->]. destruct (Ha ex eq_refl) as (e & ? & ?).
    exists 0, a, e. by rewrite Nat.add_0_r.
Qed.

Lemma join_archive_cut_short i audio_archive e ex :
  e ∈ audio_archive → join_entry ospath lp metadata i e = Raise ex →
  ∃ ex', (join_archive ospath lp metadata i audio_archive).2 = Raised ex'.
Proof.
  induction audio_archive as [|e' rest IH]; [by intros ?%elem_of_nil|].
  rewrite join_archive_cons. intros Hin Hraise.
  destruct (join_entry ospath lp metadata i e') as [|k1 r1|ex'] eqn:He'.
  - apply elem_of_cons in Hin as [->|Hin]; [congruence|]. by apply IH.
  - apply elem_of_cons in Hin as [->|Hin]; [congruence|].
    destruct (IH Hin Hraise) as [ex' Hex'].
    destruct (join_archive ospath lp metadata i rest) as [out o]. by exists ex'.
  - by exists ex'.
Qed.

Lemma join_archives_cut_short i archives j audio_archive e ex :
  archives !! j = Some audio_archive → e ∈ audio_archive →
  join_entry ospath lp metadata (i + j) e = Raise ex →
  ∃ ex', (join_archives ospath lp metadata i archives).2 = Raised ex'.
Proof.
  revert i j. induction archives as [|a rest IH]; intros i j; [done|].
  rewrite join_archives_cons. intros Hj Hin Hraise.
  destruct (join_archive ospath lp metadata i a) as [out [|ex']] eqn:Ha; [|by exists ex'].
  destruct j as [|j].
  - injection Hj as ->. rewrite Nat.add_0_r in Hraise.
    destruct (join_archive_cut_short i audio_archive e ex Hin Hraise) as [ex' Hex'].
    rewrite Ha in Hex'. done.
  - rewrite Nat.add_succ_r in Hraise.
    destruct (IH (S i) j Hj Hin Hraise) as [ex' Hex'].
    destruct (join_archives ospath lp metadata (S i) rest) as [out' o']. by exists ex'.
Qed.

(** The body raises on a matching member of an archive past the end of a
    truthy prefix list, and nowhere else. *)
Lemma join_entry_Raise_iff i path file ex :
  join_entry ospath lp metadata i (path, file) = Raise ex ↔
  ex = IndexError ∧ is_Some (metadata !! (os_path.split ospath path).2)
  ∧ ∃ l, lp = Some l ∧ l ≠ [] ∧ length l ≤ i.
Proof.
  rewrite join_entry_unfold, resolve_path_cases. split.
  - destruct (metadata !! _) as [r|]; [|done].
    destruct lp as [[|p l]|]; try done.
    destruct ((p :: l) !! i) as [prefix|] eqn:Hi; [done|]. intros [= <-].
    split; [done|]. split; [by eexists|]. exists (p :: l).
    split; [done|]. split; [done|]. by apply lookup_ge_None.
  - intros (-> & [r ->] & l & -> & Hne & Hlen). destruct l as [|p l]; [done|].
    by rewrite (proj2 (lookup_ge_None (p :: l) i) Hlen).
Qed.

End raising.

(** X6. Once the table is built, a pass ends either normally or with
    [IndexError], and it ends with [IndexError] exactly when the prefix
    list is truthy and some archive at an index past its end holds a
    member whose base filename is in the table. *)
Theorem index_error_iff (ospath : os_path.t)
    (lp : option (list string)) (archives : list (list entry))
    (reader : list row) (metadata : table) :
  read_metadata reader ∅ = Ok metadata →
  ((generate_examples ospath lp archives reader).2 = Raised IndexError ↔
   ∃ l j audio_archive path file,
     lp = Some l ∧ l ≠ [] ∧ length l ≤ j
     ∧ archives !! j = Some audio_archive ∧ (path, file) ∈ audio_archive
     ∧ is_Some (metadata !! (os_path.split ospath path).2))
  ∧ ((generate_examples ospath lp archives reader).2 = Exhausted
     ∨ (generate_examples ospath lp archives reader).2 = Raised IndexError).
Proof.
  intros Hread. unfold generate_examples. rewrite Hread.
  assert (Hex : ∀ ex, (join_archives ospath lp metadata 0 archives).2 = Raised ex →
                      ex = IndexError).
  { intros ex (j & a & [path file] & _ & _ & Hraise)%join_archives_raised.
    by apply join_entry_Raise_iff in Hraise as [-> _]. }
  split.
  - split.
    + intros (j & a & [path file] & Hj & Hin & Hraise)%join_archives_raised.
      apply join_entry_Raise_iff in Hraise as (_ & Hsome & l & -> & Hne & Hlen).
      by exists l, j, a, path, file.
    + intros (l & j & a & path & file & -> & Hne & Hlen & Hj & Hin & Hsome).
      destruct (join_archives_cut_short ospath (Some l) metadata 0 archives j a (path, file)
                  IndexError Hj Hin) as [ex Hend].
      { apply join_entry_Raise_iff. split; [done|]. split; [done|]. by exists l. }
      by rewrite Hend, (Hex _ Hend).
  - destruct (join_archives ospath lp metadata 0 archives).2 as [|ex] eqn:Hend; [by left|].
    right. by rewrite (Hex ex).
Qed.

Lemma index_error_iff_witness :
  read_metadata sample.clip1_reader ∅ = Ok sample.clip1_table
  ∧ (generate_examples unpatched (Some ["/cache/extracted/0"])
       [[sample.stray]; [sample.stray; ("en_train_1/clip1.mp3", [x01; x02])]]
       sample.clip1_reader).2 = Raised IndexError.
Proof.
  split; [by_computation|].
  apply (index_error_iff unpatched (Some ["/cache/extracted/0"])
           [[sample.stray]; [sample.stray; ("en_train_1/clip1.mp3", [x01; x02])]]
           sample.clip1_reader sample.clip1_table); [by_computation|].
  exists ["/cache/extracted/0"], 1, [sample.stray; ("en_train_1/clip1.mp3", [x01; x02])],
    "en_train_1/clip1.mp3", [x01; x02].
  repeat split; by_computation.
Defined.

(** X7. When no member of the archives has its base filename in the table,
    as with an empty transcript, a pass emits nothing and ends normally,
    whatever the prefix list. *)
Theorem no_match_no_output (ospath : os_path.t)
    (lp : option (list string)) (archives : list (list entry))
    (reader : list row) (metadata : table) :
  read_metadata reader ∅ = Ok metadata →
  (∀ audio_archive path file,
     audio_archive ∈ archives → (path, file) ∈ audio_archive →
     metadata !! (os_path.split ospath path).2 = None) →
  generate_examples ospath lp archives reader = ([], Exhausted).
Proof.
  intros Hread Hnone. unfold generate_examples. rewrite Hread.
  assert ((join_archives ospath lp metadata 0 archives).2 = Exhausted) as Hend.
  { apply join_archives_exhausted.
    intros j a [path file] ex Hj Hin [[r Hr] _]%join_entry_Raise.
    rewrite (Hnone a path file) in Hr; [done| |done]. by eapply list_elem_of_lookup_2. }
  destruct (join_archives ospath lp metadata 0 archives) as [out o] eqn:Hjoin.
  cbn [snd] in Hend. subst o. f_equal.
  destruct out as [|[key record] out]; [done|].
  destruct (join_archives_elem ospath lp metadata 0 archives key record)
    as (j & a & [path file] & Hj & Hin & Hyield).
  { rewrite Hjoin. apply list_elem_of_here. }
  apply join_entry_Yield in Hyield as (r & Hr & _).
  rewrite (Hnone a path file) in Hr; [done| |done]. by eapply list_elem_of_lookup_2.
Qed.

Lemma no_match_no_output_witness :
  generate_examples unpatched (Some ["/cache/extracted/0"])
    [[sample.stray]; [("en_train_1/clip1.mp3", [x01; x02])]] []
  = ([], Exhausted).
Proof.
  apply (no_match_no_output unpatched _ _ [] ∅); [done|]. intros. apply lookup_empty.
Defined.

(** ** The order of the rows *)

(** With no two rows under one key, the table holds every row. *)
Lemma table_lookup_distinct (reader : list row) (metadata : table) (key : string)
    (r' : row) :
  NoDup (stored_under <$> reader) →
  read_metadata reader ∅ = Ok metadata →
  metadata !! key = Some r' ↔ ∃ r, r ∈ reader ∧ normalise_row r = Ok (key, r').
Proof.
  intros Hnodup Hread. split.
  - intros Hlook.
    destruct (read_metadata_lookup _ _ _ _ _ Hread Hlook) as [Hempty|?]; [|done].
    by rewrite lookup_empty in Hempty.
  - intros (r & (reader1 & reader2 & ->)%list_elem_of_split & Hr).
    eapply read_metadata_last; [done..|].
    rewrite fmap_app, fmap_cons in Hnodup.
    apply NoDup_app in Hnodup as (_ & _ & [Hnotin _]%NoDup_cons).
    apply Forall_forall. intros r2 Hin2 r2' Hr2. apply Hnotin.
    apply list_elem_of_fmap. exists r2. split; [|done].
    unfold stored_under. by rewrite Hr, Hr2.
Qed.

(** X8. When no two rows of the transcript are stored under the same key,
    the order of the rows does not matter: any reordering of the transcript
    builds the same table and gives the same pass. *)
Theorem row_order_irrelevant (reader reader' : list row) (metadata : table) :
  reader ≡ₚ reader' →
  NoDup (stored_under <$> reader) →
  read_metadata reader ∅ = Ok metadata →
  read_metadata reader' ∅ = Ok metadata
  ∧ ∀ ospath lp archives,
      generate_examples ospath lp archives reader'
      = generate_examples ospath lp archives reader.
Proof.
  intros Hperm Hnodup Hread.
  assert (read_metadata reader' ∅ = Ok metadata) as Hread'.
  { destruct (proj2 (read_metadata_Ok reader' ∅)) as [metadata' Hread'].
    { rewrite <-Hperm. apply (read_metadata_Ok reader ∅). by exists metadata. }
    rewrite Hread'. f_equal. apply map_eq. intros key.
    assert (NoDup (stored_under <$> reader')) as Hnodup' by by rewrite <-Hperm.
    destruct (metadata' !! key) as [r'|] eqn:Hlook'.
    - symmetry. apply (table_lookup_distinct reader); [done..|].
      apply (table_lookup_distinct reader') in Hlook' as (r & Hin & Hr); [|done..].
      exists r. by rewrite Hperm.
    - destruct (metadata !! key) as [r'|] eqn:Hlook; [|done].
      apply (table_lookup_distinct reader) in Hlook as (r & Hin & Hr); [|done..].
      rewrite <-Hlook'. apply (table_lookup_distinct reader'); [done..|].
      exists r. by rewrite <-Hperm. }
  split; [done|]. intros ospath lp archives. unfold generate_examples.
  by rewrite Hread, Hread'.
Qed.

Lemma row_order_irrelevant_witness :
  ∃ metadata,
    read_metadata (sample.twice_last :: sample.twice_after) ∅ = Ok metadata
    ∧ read_metadata (sample.twice_after ++ [sample.twice_last]) ∅ = Ok metadata.
Proof.
  assert (sample.twice_last :: sample.twice_after
          ≡ₚ sample.twice_after ++ [sample.twice_last]) as Hperm.
  { change (sample.twice_last :: sample.twice_after)
      with ([sample.twice_last] ++ sample.twice_after). apply Permutation_app_comm. }
  destruct (proj2 (read_metadata_Ok (sample.twice_last :: sample.twice_after) ∅))
    as [metadata Hread].
  { apply (Forall_impl (λ r, is_Some (stored_under r))); [by_computation|].
    intros r. apply stored_under_path. }
  exists metadata. split; [done|].
  apply (row_order_irrelevant _ _ metadata Hperm); [by_computation|done].
Defined.

(** With two rows under one key the order does matter: the later one stays. *)
Example row_order_matters :
  (λ m : table, m !! "a.mp3" ≫= (.!! K "sentence"))
    <$> [default ∅ (match read_metadata (sample.twice_before ++ [sample.twice_last]) ∅
                    with Ok m => Some m | Err _ => None end);
         default ∅ (match read_metadata (sample.twice_last :: sample.twice_before) ∅
                    with Ok m => Some m | Err _ => None end)]
  = [Some (PyString "third"); Some (PyString "second")].
Proof. by_computation. Qed.

(** ** The shape of the transcript *)

Section reader_facts.

Implicit Types (fieldnames cells : list string) (d : row) (f : string).

Lemma foldl_cells_notin (l : list (string * string)) d f :
  f ∉ l.*1 →
  foldl (λ d kv, <[K kv.1 := PyString kv.2]> d) d l !! K f = d !! K f.
Proof.
  revert d. induction l as [|[k v] l IH]; intros d Hnotin; [done|].
  rewrite fmap_cons, not_elem_of_cons in Hnotin. destruct Hnotin as [Hne Hnotin].
  cbn [foldl fst snd]. rewrite IH by done. apply lookup_insert_ne.
  intros [= ->]. by apply Hne.
Qed.

Lemma foldl_cells_lookup (l : list (string * string)) d j f c :
  NoDup l.*1 → l !! j = Some (f, c) →
  foldl (λ d kv, <[K kv.1 := PyString kv.2]> d) d l !! K f = Some (PyString c).
Proof.
  revert d j. induction l as [|[k v] l IH]; intros d j Hnodup Hj; [done|].
  rewrite fmap_cons in Hnodup. apply NoDup_cons in Hnodup as [Hnotin Hnodup].
  cbn [foldl fst snd]. destruct j as [|j].
  - injection Hj as -> ->. rewrite foldl_cells_notin by done. apply lookup_insert_eq.
  - by apply (IH _ j).
Qed.

Lemma foldl_none_lookup (keys : list string) d f :
  foldl (λ d key, <[K key := PyNone]> d) d keys !! K f
  = if bool_decide (f ∈ keys) then Some PyNone else d !! K f.
Proof.
  revert d. induction keys as [|k keys IH]; intros d; [done|].
  cbn [foldl]. rewrite IH. destruct (decide (f ∈ keys)) as [Hin|Hnotin].
  - by rewrite !bool_decide_eq_true_2 by (by try apply list_elem_of_further).
  - rewrite (bool_decide_eq_false_2 (f ∈ keys)) by done.
    destruct (decide (k = f)) as [->|Hne].
    + rewrite lookup_insert_eq.
      by rewrite bool_decide_eq_true_2 by apply list_elem_of_here.
    + rewrite lookup_insert_ne by congruence.
      rewrite bool_decide_eq_false_2; [done|]. rewrite elem_of_cons. by intros [->|?].
Qed.

Lemma NoDup_fst_zip fieldnames cells :
  NoDup fieldnames → NoDup (zip fieldnames cells).*1.
Proof.
  intros Hnodup. revert cells.
  induction Hnodup as [|f fieldnames Hnotin _ IH]; intros [|c cells];
    try by constructor.
  cbn [zip_with fmap list_fmap fst]. constructor; [|apply IH].
  intros ([f' c'] & -> & Hin%elem_of_zip_l)%list_elem_of_fmap. done.
Qed.

(** What the reader puts under the column at index [j] of a header
    without repeated names. *)
Lemma dict_of_line_lookup fieldnames cells j f :
  NoDup fieldnames → fieldnames !! j = Some f →
  dict_of_line fieldnames cells !! K f
  = Some match cells !! j with
         | Some c => PyString c
         | None => PyNone
         end.
Proof.
  intros Hnodup Hj. unfold dict_of_line.
  destruct (cells !! j) as [c|] eqn:Hc.
  - assert (foldl (λ d kv, <[K kv.1 := PyString kv.2]> d) ∅ (zip fieldnames cells)
              !! K f = Some (PyString c)) as Hzip.
    { apply (foldl_cells_lookup _ _ j); [by apply NoDup_fst_zip|].
      apply lookup_zip_with_Some. by exists f, c. }
    case_decide; [by rewrite lookup_insert_ne|].
    rewrite foldl_none_lookup, bool_decide_eq_false_2; [done|].
    intros [i Hi]%list_elem_of_lookup. rewrite lookup_drop in Hi.
    pose proof (NoDup_lookup _ _ _ _ Hnodup Hi Hj). apply lookup_lt_Some in Hc. lia.
  - apply lookup_ge_None in Hc. pose proof (lookup_lt_Some _ _ _ Hj).
    rewrite decide_False by lia.
    rewrite foldl_none_lookup, bool_decide_eq_true_2; [done|].
    apply list_elem_of_lookup. exists (j - length cells).
    rewrite lookup_drop, <-Hj. f_equal. lia.
Qed.

Lemma dict_of_line_notin fieldnames cells f :
  f ∉ fieldnames → dict_of_line fieldnames cells !! K f = None.
Proof.
  intros Hnotin. unfold dict_of_line.
  assert (foldl (λ d kv, <[K kv.1 := PyString kv.2]> d) ∅ (zip fieldnames cells)
            !! K f = None) as Hzip.
  { rewrite foldl_cells_notin; [done|].
    intros ([f' c'] & -> & Hin%elem_of_zip_l)%list_elem_of_fmap. done. }
  case_decide; [by rewrite lookup_insert_ne|].
  rewrite foldl_none_lookup, bool_decide_eq_false_2; [done|].
  intros Hin. apply Hnotin. by eapply subseteq_drop.
Qed.

Lemma Forall_DictReader (P : row → Prop) fieldnames (lines : list (list string)) :
  Forall P (DictReader fieldnames lines)
  ↔ Forall (λ cells, cells = [] ∨ P (dict_of_line fieldnames cells)) lines.
Proof.
  unfold DictReader. induction lines as [|cells lines IH]; [by split; constructor|].
  rewrite filter_cons, Forall_cons. destruct (decide (cells ≠ [])) as [Hne|Heq].
  - rewrite fmap_cons, Forall_cons, IH. split; intros [Hcells ?]; (split; [|done]).
    + by right.
    + by destruct Hcells.
  - rewrite IH. apply dec_stable in Heq. split; [|by intros [_ ?]].
    intros ?. split; [by left|done].
Qed.

End reader_facts.

(** X9. Which transcripts the reading loop accepts. With a header that has
    no repeated column and [path] at index [j], the table is built exactly
    when every non-blank line has a cell at index [j]; with a header
    without [path], exactly when there is no non-blank line. *)
Theorem transcript_accepted_iff (fieldnames : list string) (lines : list (list string)) :
  NoDup fieldnames →
  (∀ j, fieldnames !! j = Some "path" →
        (∃ metadata, read_metadata (DictReader fieldnames lines) ∅ = Ok metadata)
        ↔ Forall (λ cells, cells = [] ∨ j < length cells) lines)
  ∧ ("path" ∉ fieldnames →
     (∃ metadata, read_metadata (DictReader fieldnames lines) ∅ = Ok metadata)
     ↔ Forall (λ cells, cells = []) lines).
Proof.
  intros Hnodup. split.
  - intros j Hj. rewrite read_metadata_Ok, Forall_DictReader.
    apply Forall_iff. intros cells.
    rewrite (dict_of_line_lookup _ cells j) by done.
    destruct (cells !! j) as [c|] eqn:Hc.
    + apply lookup_lt_Some in Hc. split; [by right|]. intros _. right. by exists c.
    + apply lookup_ge_None in Hc.
      split; (intros [?|Hrow]; [by left|]); [by destruct Hrow as [? [=]]|lia].
  - intros Hnotin. rewrite read_metadata_Ok, Forall_DictReader.
    apply Forall_iff. intros cells. rewrite dict_of_line_notin by done.
    split; [|by left]. by intros [?|[? [=]]].
Qed.

Lemma transcript_accepted_iff_witness :
  NoDup ["client_id"; "path"; "sentence"]
  ∧ ∃ metadata,
      read_metadata
        (DictReader ["client_id"; "path"; "sentence"]
           [["abc"; "clip1"; "hi"]; []; ["def"; "clip2"]]) ∅ = Ok metadata.
Proof.
  assert (NoDup ["client_id"; "path"; "sentence"]) as Hnodup by by_computation.
  split; [done|].
  apply (proj1 (transcript_accepted_iff ["client_id"; "path"; "sentence"]
                  [["abc"; "clip1"; "hi"]; []; ["def"; "clip2"]] Hnodup) 1); [done|].
  repeat constructor; (by left) || (right; by_computation).
Defined.

(** * The plan of the splits *)

Section plan_facts.

Context (json_load : string → gmap string (gmap string Z)) (lang : string)
  (dl_manager : DownloadManager).

(** A dictionary filled key by key with a value computed from the key. *)
Lemma foldl_insert_lookup {V} (f : string → V) (keys : list string)
    (d : gmap string V) (k : string) :
  foldl (λ d key, <[key := f key]> d) d keys !! k
  = if bool_decide (k ∈ keys) then Some (f k) else d !! k.
Proof.
  revert d. induction keys as [|key keys IH]; intros d; [done|].
  cbn [foldl]. rewrite IH. destruct (decide (k ∈ keys)) as [Hin|Hnotin].
  - by rewrite !bool_decide_eq_true_2 by (by try apply list_elem_of_further).
  - rewrite (bool_decide_eq_false_2 (k ∈ keys)) by done.
    destruct (decide (key = k)) as [->|Hne].
    + rewrite lookup_insert_eq.
      by rewrite bool_decide_eq_true_2 by apply list_elem_of_here.
    + rewrite lookup_insert_ne by done.
      rewrite bool_decide_eq_false_2; [done|]. rewrite elem_of_cons. by intros [->|?].
Qed.

Lemma shard_urls_Ok n_shards by_split split n :
  n_shards !! lang = Some by_split → by_split !! split = Some n →
  shard_urls n_shards lang split = Ok (urls_of lang by_split split).
Proof.
  intros Hlang Hsplit. unfold shard_urls, dict_getitem, urls_of.
  by rewrite Hlang, bind_Ok, Hsplit.
Qed.

Lemma audio_urls_loop_Ok n_shards by_split todo audio_urls :
  n_shards !! lang = Some by_split →
  Forall (λ split, is_Some (by_split !! split)) todo →
  audio_urls_loop n_shards lang todo audio_urls
  = Ok (foldl (λ d split, <[split := urls_of lang by_split split]> d) audio_urls todo).
Proof.
  intros Hlang Htodo. revert audio_urls.
  induction Htodo as [|split todo [n Hn] _ IH]; intros audio_urls; [done|].
  cbn [audio_urls_loop foldl].
  by rewrite (shard_urls_Ok _ _ _ _ Hlang Hn), bind_Ok, IH.
Qed.

Lemma audio_urls_loop_no_lang n_shards split todo audio_urls :
  n_shards !! lang = None →
  audio_urls_loop n_shards lang (split :: todo) audio_urls = Err (KeyError lang).
Proof.
  intros Hlang. cbn [audio_urls_loop]. unfold shard_urls, dict_getitem.
  by rewrite Hlang.
Qed.

Lemma audio_urls_loop_no_split n_shards by_split good bad rest audio_urls :
  n_shards !! lang = Some by_split →
  Forall (λ split, is_Some (by_split !! split)) good →
  by_split !! bad = None →
  audio_urls_loop n_shards lang (good ++ bad :: rest) audio_urls = Err (KeyError bad).
Proof.
  intros Hlang Hgood Hbad. revert audio_urls.
  induction Hgood as [|split good [n Hn] _ IH]; intros audio_urls.
  - cbn [app audio_urls_loop]. unfold shard_urls, dict_getitem.
    by rewrite Hlang, bind_Ok, Hbad.
  - rewrite <-app_comm_cons. cbn [audio_urls_loop].
    by rewrite (shard_urls_Ok _ _ _ _ Hlang Hn), bind_Ok, IH.
Qed.

Lemma split_generators_loop_Ok (local archive_paths : gmap string (list string))
    (meta_paths : gmap string string) (g : string → SplitGenerator.t)
    (todo : list string) :
  (∀ split, split ∈ todo →
     split_generator dl_manager local archive_paths meta_paths split = Ok (g split)) →
  split_generators_loop dl_manager local archive_paths meta_paths todo = Ok (g <$> todo).
Proof.
  induction todo as [|split todo IH]; intros Hg; [done|].
  cbn [split_generators_loop].
  rewrite (Hg split) by apply list_elem_of_here. rewrite bind_Ok, IH; [done|].
  intros s ?. apply Hg. by apply list_elem_of_further.
Qed.

(** The plan in closed form, when the table has the counts of every split. *)
Lemma split_generators_Ok by_split :
  json_load (download_and_extract dl_manager _N_SHARDS_URL) !! lang = Some by_split →
  Forall (λ split, is_Some (by_split !! split)) splits →
  _split_generators json_load lang dl_manager = Ok (planned lang dl_manager by_split <$> splits).
Proof.
  intros Hlang Hsplits. unfold _split_generators.
  rewrite (audio_urls_loop_Ok _ by_split) by done.
  apply split_generators_loop_Ok. intros split Hin.
  unfold split_generator, dict_getitem.
  rewrite !lookup_fmap, !foldl_insert_lookup, bool_decide_eq_true_2 by done.
  cbn [fmap option_fmap option_map iter_archives]. rewrite !bind_Ok.
  unfold planned. do 3 f_equal.
  destruct (is_streaming dl_manager); cbn [negb].
  - apply lookup_empty.
  - rewrite !lookup_fmap, foldl_insert_lookup, bool_decide_eq_true_2 by done. done.
Qed.

Lemma audio_urls_loop_Ok_inv n_shards split todo audio_urls urls :
  audio_urls_loop n_shards lang (split :: todo) audio_urls = Ok urls →
  ∃ by_split, n_shards !! lang = Some by_split
              ∧ Forall (λ split, is_Some (by_split !! split)) (split :: todo).
Proof.
  destruct (n_shards !! lang) as [by_split|] eqn:Hlang;
    [|by rewrite audio_urls_loop_no_lang].
  intros Hok. exists by_split. split; [done|].
  revert audio_urls Hok. generalize (split :: todo). clear split todo.
  induction l as [|split todo IH]; intros audio_urls Hok; [by constructor|].
  cbn [audio_urls_loop] in Hok. unfold shard_urls, dict_getitem in Hok.
  rewrite Hlang, bind_Ok in Hok.
  destruct (by_split !! split) as [n|] eqn:Hsplit; [|done].
  rewrite !bind_Ok in Hok. constructor; [by eexists|by eapply IH].
Qed.

(** When the plan is made, the table has what it needs. *)
Lemma split_generators_Ok_inv gens :
  _split_generators json_load lang dl_manager = Ok gens →
  ∃ by_split,
    json_load (download_and_extract dl_manager _N_SHARDS_URL) !! lang = Some by_split
    ∧ Forall (λ split, is_Some (by_split !! split)) splits.
Proof.
  unfold _split_generators.
  destruct (audio_urls_loop _ lang splits ∅) as [urls|ex] eqn:Hloop; [|done].
  intros _. by eapply audio_urls_loop_Ok_inv.
Qed.

End plan_facts.

(** X10. When [_split_generators] succeeds it returns one generator per
    split, in the order of [splits]. The generator of a split is named
    after it ([dev] as [validation]), reads the transcript of that split,
    and has one archive per shard of that split, opened from the
    downloaded shard; when not streaming, the prefix at an index is the
    extraction of the very shard the archive at that index is opened from,
    and when streaming there is no prefix list. *)
Theorem split_plan_aligned (json_load : string → gmap string (gmap string Z))
    (lang : string) (dl_manager : DownloadManager) (gens : list SplitGenerator.t) :
  _split_generators json_load lang dl_manager = Ok gens →
  length gens = length splits
  ∧ ∀ k split g,
      splits !! k = Some split → gens !! k = Some g →
      SplitGenerator.name g = default split (split_names !! split)
      ∧ gen_kwargs.meta_path (SplitGenerator.gen_kwargs g)
        = download_and_extract dl_manager (_TRANSCRIPT_URL lang split)
      ∧ ∃ by_split n,
          json_load (download_and_extract dl_manager _N_SHARDS_URL) !! lang
            = Some by_split
          ∧ by_split !! split = Some n
          ∧ let paths := (λ i, download dl_manager (_AUDIO_URL lang split i))
                           <$> seqZ 0 n in
            gen_kwargs.archives (SplitGenerator.gen_kwargs g)
              = iter_archive dl_manager <$> paths
            ∧ gen_kwargs.local_extracted_archive_paths (SplitGenerator.gen_kwargs g)
              = if is_streaming dl_manager then None
                else Some (extract dl_manager <$> paths).
Proof.
  intros Hok.
  destruct (split_generators_Ok_inv _ _ _ _ Hok) as (by_split & Hlang & Hsplits).
  rewrite (split_generators_Ok _ _ _ by_split Hlang Hsplits) in Hok.
  apply Ok_inj in Hok as <-. split; [by rewrite length_fmap|].
  intros k split g Hk Hg. rewrite list_lookup_fmap, Hk in Hg. injection Hg as <-.
  split; [done|]. split; [done|].
  assert (is_Some (by_split !! split)) as [n Hn].
  { apply (proj1 (Forall_forall _ _) Hsplits split). by eapply list_elem_of_lookup_2. }
  exists by_split, n. split; [done|]. split; [done|].
  cbn [planned SplitGenerator.gen_kwargs gen_kwargs.archives
         gen_kwargs.local_extracted_archive_paths].
  unfold urls_of. rewrite Hn. cbn [default]. by rewrite <-!list_fmap_compose.
Qed.

Lemma split_plan_aligned_witness :
  _split_generators sample.json_load "en" (sample.manager false)
    = Ok (planned "en" (sample.manager false) sample.shard_counts <$> splits)
  ∧ length (planned "en" (sample.manager false) sample.shard_counts <$> splits)
    = length splits.
Proof.
  assert (_split_generators sample.json_load "en" (sample.manager false)
          = Ok (planned "en" (sample.manager false) sample.shard_counts <$> splits))
    as Hok by by_computation.
  split; [done|]. by destruct (split_plan_aligned _ _ _ _ Hok) as [-> _].
Defined.

(** X11. [_split_generators] fails exactly when the table of shard counts
    lacks the language or, for the language, the count of a split: it
    raises [KeyError] with the language in the first case and with the
    first split without a count in the second. *)
Theorem split_plan_missing_counts (json_load : string → gmap string (gmap string Z))
    (lang : string) (dl_manager : DownloadManager) :
  let n_shards := json_load (download_and_extract dl_manager _N_SHARDS_URL) in
  (n_shards !! lang = None →
   _split_generators json_load lang dl_manager = Err (KeyError lang))
  ∧ (∀ by_split good bad rest,
       n_shards !! lang = Some by_split → splits = good ++ bad :: rest →
       Forall (λ split, is_Some (by_split !! split)) good → by_split !! bad = None →
       _split_generators json_load lang dl_manager = Err (KeyError bad))
  ∧ ((∃ gens, _split_generators json_load lang dl_manager = Ok gens)
     ↔ ∃ by_split, n_shards !! lang = Some by_split
                   ∧ Forall (λ split, is_Some (by_split !! split)) splits).
Proof.
  intros n_shards. split; [|split].
  - intros Hlang. unfold _split_generators, splits. fold n_shards.
    by rewrite (audio_urls_loop_no_lang lang n_shards "train").
  - intros by_split good bad rest Hlang Hsplits Hgood Hbad.
    unfold _split_generators. fold n_shards.
    by rewrite Hsplits, (audio_urls_loop_no_split lang n_shards by_split).
  - split.
    + intros [gens Hok]. by eapply split_generators_Ok_inv.
    + intros (by_split & Hlang & Hsplits). eexists.
      by apply split_generators_Ok.
Qed.

Example split_plan_missing_language :
  _split_generators sample.json_load "cy" (sample.manager true) = Err (KeyError "cy").
Proof. by_computation. Qed.

Example split_plan_missing_split :
  _split_generators (λ _, {[ "en" := delete "test" (delete "other" sample.shard_counts) ]})
    "en" (sample.manager true)
  = Err (KeyError "test").
Proof. by_computation. Qed.

(** X12. The passes the plan asks for stay within the prefix list: for
    every generator of a plan and every transcript, [_generate_examples]
    on its arguments raises nothing once the Metadata Table is built. *)
Theorem planned_pass_in_bounds (json_load : string → gmap string (gmap string Z))
    (lang : string) (dl_manager : DownloadManager) (gens : list SplitGenerator.t)
    (g : SplitGenerator.t) (ospath : os_path.t) (reader : list row) :
  _split_generators json_load lang dl_manager = Ok gens →
  g ∈ gens →
  (generate_examples ospath
     (gen_kwargs.local_extracted_archive_paths (SplitGenerator.gen_kwargs g))
     (gen_kwargs.archives (SplitGenerator.gen_kwargs g)) reader).2
  = match read_metadata reader ∅ with
    | Ok _ => Exhausted
    | Err ex => Raised ex
    end.
Proof.
  intros Hok Hin.
  destruct (split_generators_Ok_inv _ _ _ _ Hok) as (by_split & Hlang & Hsplits).
  rewrite (split_generators_Ok _ _ _ by_split Hlang Hsplits) in Hok.
  apply Ok_inj in Hok as <-.
  apply list_elem_of_fmap in Hin as (split & -> & _).
  unfold generate_examples.
  destruct (read_metadata reader ∅) as [metadata|ex]; [|done].
  apply join_archives_exhausted.
  intros j a [path file] ex Hj _ (_ & _ & l & Hl & _ & Hlen)%join_entry_Raise_iff.
  cbn [planned SplitGenerator.gen_kwargs gen_kwargs.archives
         gen_kwargs.local_extracted_archive_paths] in *.
  destruct (is_streaming dl_manager); [done|]. injection Hl as <-.
  apply lookup_lt_Some in Hj. rewrite !length_fmap in *. lia.
Qed.

Lemma planned_pass_in_bounds_witness :
  let g := planned "en" (sample.manager false) sample.shard_counts "train" in
  _split_generators sample.json_load "en" (sample.manager false)
    = Ok (planned "en" (sample.manager false) sample.shard_counts <$> splits)
  ∧ length (gen_kwargs.archives (SplitGenerator.gen_kwargs g)) = 2
  ∧ (generate_examples unpatched
       (gen_kwargs.local_extracted_archive_paths (SplitGenerator.gen_kwargs g))
       (gen_kwargs.archives (SplitGenerator.gen_kwargs g)) sample.clip1_reader).2
    = Exhausted.
Proof.
  intros g.
  assert (_split_generators sample.json_load "en" (sample.manager false)
          = Ok (planned "en" (sample.manager false) sample.shard_counts <$> splits))
    as Hok by by_computation.
  split; [done|]. split; [by_computation|].
  rewrite (planned_pass_in_bounds sample.json_load "en" (sample.manager false) _
             g unpatched sample.clip1_reader Hok).
  - by_computation.
  - apply list_elem_of_fmap_2. by_computation.
Defined.

(** ** The URLs of the shards *)

Section url_facts.

Lemma length_app (s t : string) :
  String.length (s +:+ t) = String.length s + String.length t.
Proof.
  induction s as [|c s IH]; [done|]. rewrite app_String. cbn [String.length].
  by rewrite IH.
Qed.

Lemma app_inj_r (t s s' : string) : s +:+ t = s' +:+ t → s = s'.
Proof.
  revert s'. induction s as [|c s IH]; intros [|c' s'] Heq; [done| | |].
  - apply (f_equal String.length) in Heq.
    rewrite !length_app in Heq. cbn [String.length] in Heq. lia.
  - apply (f_equal String.length) in Heq.
    rewrite !length_app in Heq. cbn [String.length] in Heq. lia.
  - rewrite !app_String in Heq. injection Heq as -> Heq. f_equal. by apply IH.
Qed.

Lemma rfind_sep_None_cons c s :
  PyStr.rfind_sep (String c s) = None → c ≠ "/"%char ∧ PyStr.rfind_sep s = None.
Proof.
  cbn [PyStr.rfind_sep]. destruct (PyStr.rfind_sep s); [done|].
  destruct (Ascii.eqb_spec c "/"); [done|]. done.
Qed.

(** Two paths that agree and whose first components have no separator
    agree component by component. *)
Lemma cut_at_sep (s1 s2 x y : string) :
  PyStr.rfind_sep s1 = None → PyStr.rfind_sep s2 = None →
  s1 +:+ "/" +:+ x = s2 +:+ "/" +:+ y → s1 = s2 ∧ x = y.
Proof.
  revert s2. induction s1 as [|c s1 IH]; intros [|c' s2] H1 H2 Heq.
  - rewrite !app_empty_l, !app_String, !app_empty_l in Heq. by injection Heq as ->.
  - rewrite app_empty_l, !app_String in Heq. injection Heq as <- _.
    by apply rfind_sep_None_cons in H2 as [[] _].
  - rewrite app_empty_l, !app_String in Heq. injection Heq as -> _.
    by apply rfind_sep_None_cons in H1 as [[] _].
  - rewrite !(app_String _ _ ("/" +:+ _)) in Heq. injection Heq as -> Heq.
    apply rfind_sep_None_cons in H1 as [_ H1], H2 as [_ H2].
    destruct (IH s2 H1 H2 Heq) as [-> ->]. done.
Qed.

End url_facts.

(** X13. No two shards of a language share a URL: the audio URLs of two
    splits of the plan, or of two shard indices of one split, differ. *)
Theorem audio_urls_distinct (lang split1 split2 : string) (i1 i2 : Z) :
  split1 ∈ splits → split2 ∈ splits →
  _AUDIO_URL lang split1 i1 = _AUDIO_URL lang split2 i2 →
  split1 = split2 ∧ i1 = i2.
Proof.
  intros Hs1 Hs2 Heq.
  assert (Forall (λ s, PyStr.rfind_sep s = None) splits) as Hsep by by_computation.
  unfold _AUDIO_URL in Heq.
  do 4 apply (inj (String.append _)) in Heq.
  apply cut_at_sep in Heq as [-> Heq];
    [|by apply (proj1 (Forall_forall _ _) Hsep)..].
  split; [done|].
  do 4 apply (inj (String.append _)) in Heq.
  apply app_inj_r in Heq. by apply (inj pretty).
Qed.

Lemma audio_urls_distinct_witness :
  "dev" ∈ splits
  ∧ _AUDIO_URL "en" "dev" 3%Z = _BASE_URL +:+ "audio/en/dev/en_dev_3.tar"
  ∧ ("dev" = "dev" ∧ 3%Z = 3%Z).
Proof.
  split; [by_computation|]. split; [by_computation|].
  apply (audio_urls_distinct "en"); by_computation.
Defined.

(** * The order of emission with extraction prefixes *)

Lemma join_archive_extracted (ospath : os_path.t) (l : list string)
    (metadata : table) (i : nat)
    (prefix : string) (audio_archive : list entry) :
  l !! i = Some prefix →
  (join_archive ospath (Some l) metadata i audio_archive).1.*1
    = os_path.join ospath prefix
        <$> filter (λ path, is_Some (metadata !! (os_path.split ospath path).2)) audio_archive.*1
  ∧ (join_archive ospath (Some l) metadata i audio_archive).2 = Exhausted.
Proof.
  intros Hi. induction audio_archive as [|[path file] rest [IHout IHend]]; [done|].
  rewrite join_archive_cons, join_entry_unfold, resolve_path_cases, fmap_cons, filter_cons.
  cbn [fst]. destruct l as [|p l]; [done|]. rewrite Hi.
  destruct (metadata !! (os_path.split ospath path).2) as [r|] eqn:Hr.
  - rewrite decide_True by by eexists.
    destruct (join_archive ospath (Some (p :: l)) metadata i rest) as [out o].
    cbn [fst snd] in *. by rewrite !fmap_cons, IHout.
  - rewrite decide_False by (by intros []). done.
Qed.

Lemma join_archives_extracted (ospath : os_path.t) (l : list string)
    (metadata : table) (i : nat)
    (archives : list (list entry)) :
  i + length archives ≤ length l →
  (join_archives ospath (Some l) metadata i archives).1.*1
    = mjoin (zip_with
               (λ prefix (audio_archive : list entry),
                  os_path.join ospath prefix
                    <$> filter (λ path, is_Some (metadata !! (os_path.split ospath path).2))
                          audio_archive.*1)
               (drop i l) archives)
  ∧ (join_archives ospath (Some l) metadata i archives).2 = Exhausted.
Proof.
  revert i. induction archives as [|a rest IH]; intros i Hlen.
  { split; [|done]. cbn [join_archives fst fmap list_fmap]. by destruct (drop i l). }
  cbn [length] in Hlen.
  destruct (lookup_lt_is_Some_2 l i) as [prefix Hi]; [lia|].
  rewrite (drop_S _ _ _ Hi), join_archives_cons.
  destruct (join_archive_extracted ospath l metadata i prefix a Hi) as [Hout Hend].
  destruct (join_archive ospath (Some l) metadata i a) as [out o]. cbn [fst snd] in *. subst o.
  destruct (IH (S i)) as [IHout IHend]; [lia|].
  destruct (join_archives ospath (Some l) metadata (S i) rest) as [out' o'].
  cbn [fst snd] in *. split; [|done].
  cbn [zip_with mjoin list_join]. by rewrite fmap_app, Hout, IHout.
Qed.

(** X14. With a prefix list at least as long as the list of archives, a
    pass never raises once the table is built, and the keys it emits are,
    archive by archive and member by member, the paths of the members
    whose base filename is in the table, each joined to the prefix of its
    archive. *)
Theorem extracted_keys_in_archive_order (ospath : os_path.t) (l : list string)
    (archives : list (list entry)) (reader : list row) (metadata : table) :
  length archives ≤ length l →
  read_metadata reader ∅ = Ok metadata →
  (generate_examples ospath (Some l) archives reader).1.*1
    = mjoin (zip_with
               (λ prefix (audio_archive : list entry),
                  os_path.join ospath prefix
                    <$> filter (λ path, is_Some (metadata !! (os_path.split ospath path).2))
                          audio_archive.*1)
               l archives)
  ∧ (generate_examples ospath (Some l) archives reader).2 = Exhausted.
Proof.
  intros Hlen Hread. unfold generate_examples. rewrite Hread.
  by apply (join_archives_extracted ospath l metadata 0 archives).
Qed.

Lemma extracted_keys_in_archive_order_witness :
  read_metadata sample.clip1_reader ∅ = Ok sample.clip1_table
  ∧ (generate_examples unpatched (Some ["/x/0"; "/x/1"; "/x/2"])
       [[sample.stray; ("b/clip1.mp3", [x01])]; [("a/clip1.mp3", [x02]); sample.stray]]
       sample.clip1_reader).1.*1
    = ["/x/0/b/clip1.mp3"; "/x/1/a/clip1.mp3"].
Proof.
  split; [by_computation|].
  destruct (extracted_keys_in_archive_order unpatched ["/x/0"; "/x/1"; "/x/2"]
              [[sample.stray; ("b/clip1.mp3", [x01])]; [("a/clip1.mp3", [x02]); sample.stray]]
              sample.clip1_reader sample.clip1_table) as [-> _]; by_computation.
Defined.
